(** * Similarity network pipeline of [main.py]

    A shallow embedding of the similarity-to-graph script: graph
    construction from a similarity matrix and a threshold, the keyword
    filter, the ranked pair table, and the places where the script stops.

    Conventions.
    - Scores ([similarity_matrix[i][j]], [threshold], edge weights) are
      finite binary64 numbers in the script.  Every such number is a
      rational and [>=] on them is the order of the rationals, so they are
      embedded in [Q]; two scores that compare equal are related by [==].
      The matrix of [cosine_similarity] holds no NaN.
    - Where the script computes with scores (the rounding of line 134, the
      similarity engine of line 40) the numbers are binary64 values with the
      operations of [SpecFloat], rounding to nearest, ties to even.
    - [similarity_matrix] is an N x N array that the script reads only at
      [i < j < N]; it is represented by its indexing function.
    - [networkx.Graph] is embedded by its two dictionaries: the node
      dictionary (node -> label attribute) and the adjacency dictionary
      (node -> neighbour -> weight attribute).
    - Texts are strings of bytes (UTF-8), [in] on strings is the substring
      test. *)

From Stdlib Require Import Ascii QArith Sorted Permutation Lqa SpecFloat.
From stdpp Require Import gmap strings list fin_maps fin_sets sorting.

Open Scope nat_scope.

(** ** Strings: the [in] operator of Python on [str] *)

Module Str.

(** [is_prefix p s]: [s.startswith(p)]. *)
Fixpoint is_prefix (p s : string) : bool :=
  match p, s with
  | EmptyString, _ => true
  | String a p', String b s' => if decide (a = b) then is_prefix p' s' else false
  | String _ _, EmptyString => false
  end.

(** [contains kw s]: [kw in s], a case-sensitive search of [kw] at every
    offset of [s]. *)
Fixpoint contains (kw s : string) : bool :=
  is_prefix kw s ||
  match s with
  | EmptyString => false
  | String _ s' => contains kw s'
  end.

(** Truth value of a [str]: non-empty. *)
Definition truthy (s : string) : bool :=
  match s with EmptyString => false | String _ _ => true end.

End Str.

(** ** The ways the script stops

    Each [st.stop()] of the script ends the run; the names are those of the
    specification. *)

Inductive PipelineError : Set :=
| VectorizationError   (* lines 36-38: fit_transform raised *)
| EmptyCorpusError     (* lines 51-53: no node *)
| NoEdgesError         (* lines 54-56: no edge *)
| NoMatchError.        (* lines 67-69: keyword matched no label *)

Inductive result (A : Type) : Type :=
| Ok (a : A)
| Stop (e : PipelineError).
Arguments Ok {A} a.
Arguments Stop {A} e.

Definition bind_result {A B} (r : result A) (k : A → result B) : result B :=
  match r with
  | Ok a => k a
  | Stop e => Stop e
  end.

(** What a run leaves on screen: nothing after a stop. *)
Definition produced {A} (r : result A) : option A :=
  match r with
  | Ok a => Some a
  | Stop _ => None
  end.

(** ** networkx.Graph *)

Record Graph : Type := mkGraph {
  node : gmap nat string;          (* G._node: node -> label *)
  adj : gmap nat (gmap nat Q)      (* G._adj: node -> neighbour -> weight *)
}.

Module nx.

Definition empty : Graph := mkGraph ∅ ∅.

(** [G.add_node(n, label=txt)]: a new node gets an empty adjacency entry; the
    label is set either way. *)
Definition add_node (G : Graph) (n : nat) (txt : string) : Graph :=
  mkGraph (<[n := txt]> (node G))
          (match node G !! n with
           | None => <[n := ∅]> (adj G)
           | Some _ => adj G
           end).

(** [G.add_edge(u, v, weight=w)]: the weight is written in both directions.
    The script only joins indices that are nodes already, so the branch of
    networkx that first creates the end points is never taken. *)
Definition add_edge (G : Graph) (u v : nat) (w : Q) : Graph :=
  let a1 := <[u := <[v := w]> (default ∅ (adj G !! u))]> (adj G) in
  let a2 := <[v := <[u := w]> (default ∅ (a1 !! v))]> a1 in
  mkGraph (node G) a2.

(** [G.neighbors(n)]. *)
Definition neighbors (G : Graph) (n : nat) : gset nat :=
  dom (default ∅ (adj G !! n)).

(** [G[u][v]["weight"]] when the edge exists. *)
Definition edge_weight (G : Graph) (u v : nat) : option Q :=
  adj G !! u ≫= (.!! v).

(** [G.has_edge(u, v)]. *)
Definition has_edge (G : Graph) (u v : nat) : bool :=
  bool_decide (is_Some (edge_weight G u v)).

(** [G.number_of_nodes()]. *)
Definition number_of_nodes (G : Graph) : nat := size (node G).

(** [G.degree(n)]: the neighbours, a self-loop counted twice. *)
Definition degree (n : nat) (nbrs : gmap nat Q) : nat :=
  size nbrs + (if decide (n ∈ dom nbrs) then 1 else 0).

(** [G.number_of_edges()]: half the sum of the degrees. *)
Definition number_of_edges (G : Graph) : nat :=
  map_fold (λ n nbrs acc, degree n nbrs + acc) 0 (adj G) / 2.

(** The edges as a set of pairs, each undirected edge once, smaller end
    first (the script adds edges as [(i, j)] with [i < j]). *)
Definition edges (G : Graph) : gset (nat * nat) :=
  set_bind (λ u, set_map (λ v, (u, v))
                   (filter (λ v, u ≤ v) (neighbors G u)))
           (dom (adj G)).

(** [G.subgraph(nodes).copy()]: the nodes of [G] that are in [nodes], with
    their labels, and the edges of [G] between them, with their weights. *)
Definition subgraph (G : Graph) (nodes : gset nat) : Graph :=
  mkGraph (filter (λ p, p.1 ∈ nodes) (node G))
          (filter (λ p, p.1 ∈ nodes) <$> filter (λ p, p.1 ∈ nodes) (adj G)).

End nx.

(** ** The script, from [texts] on *)

(** [enumerate(l)]. *)
Definition enumerate {A} (l : list A) : list (nat * A) :=
  zip (seq 0 (length l)) l.

(** [range(a, b)]. *)
Definition range (a b : nat) : list nat := seq a (b - a).

(** [similarity_matrix[i][j] >= threshold]. *)
Definition meets (threshold : Q) (score : Q) : bool := Qle_bool threshold score.

(** *** Vectorizer (lines 33-38)

    [TfidfVectorizer().fit_transform(texts)] collects the vocabulary of the
    corpus with its analyzer and raises [ValueError] (empty vocabulary) when
    no text yields a term.  The analyzer (lower-casing and the Unicode token
    pattern of scikit-learn) is a parameter.  The numeric matrix is consumed
    by [cosine_similarity] only, whose result is the [similarity_matrix]
    argument below, so a successful call returns just the analysed texts. *)
Definition fit_transform (analyze : string → list string) (texts : list string)
  : option (list (list string)) :=
  let docs := analyze <$> texts in
  if forallb (λ d, bool_decide (d = [])) docs then None else Some docs.

(** *** Graph Builder (lines 42-49) *)

Definition add_nodes (texts : list string) : Graph :=
  foldl (λ G p, nx.add_node G p.1 p.2) nx.empty (enumerate texts).

Definition add_edges_from (texts : list string) (similarity_matrix : nat → nat → Q)
    (threshold : Q) (G : Graph) (i : nat) : Graph :=
  foldl (λ G j,
           if meets threshold (similarity_matrix i j)
           then nx.add_edge G i j (similarity_matrix i j)
           else G)
        G (range (i + 1) (length texts)).

Definition build_graph (texts : list string) (similarity_matrix : nat → nat → Q)
    (threshold : Q) : Graph :=
  foldl (add_edges_from texts similarity_matrix threshold)
        (add_nodes texts) (range 0 (length texts)).

(** *** The two checks after construction (lines 51-56) *)

Definition check_graph (G : Graph) : result Graph :=
  if nx.number_of_nodes G =? 0 then Stop EmptyCorpusError
  else if nx.number_of_edges G =? 0 then Stop NoEdgesError
  else Ok G.

(** *** Keyword Filter (lines 59-69) *)

Definition matched_nodes (G : Graph) (search_keyword : string) : list nat :=
  (filter (λ p, Str.contains search_keyword p.2) (map_to_list (node G))).*1.

Definition sub_nodes (G : Graph) (matched : list nat) : gset nat :=
  foldl (λ acc n, acc ∪ {[n]} ∪ nx.neighbors G n) ∅ matched.

Definition keyword_filter (G : Graph) (search_keyword : string) : result Graph :=
  if Str.truthy search_keyword then
    match matched_nodes G search_keyword with
    | [] => Stop NoMatchError
    | matched => Ok (nx.subgraph G (sub_nodes G matched))
    end
  else Ok G.

(** Lines 51-69: from the built graph to the graph that is drawn. *)
Definition display_graph (G : Graph) (search_keyword : string) : result Graph :=
  bind_result (check_graph G) (λ G, keyword_filter G search_keyword).

(** *** Ranked Pair Extractor (lines 120-137) *)

Definition top_n : nat := 20.

Definition Pair : Type := nat * nat * Q.

Definition score (p : Pair) : Q := p.2.

Definition pairs (texts : list string) (similarity_matrix : nat → nat → Q)
    (threshold : Q) : list Pair :=
  i ← range 0 (length texts);
  j ← range (i + 1) (length texts);
  if meets threshold (similarity_matrix i j) then [(i, j, similarity_matrix i j)] else [].

(** [sorted(l, key=lambda x: x[2], reverse=True)].  Python's sort is stable,
    also with [reverse=True]: elements whose keys compare equal keep their
    order.  On keys that are totally preordered a stable sort has one result,
    computed here by insertion. *)
Fixpoint insert_desc (x : Pair) (l : list Pair) : list Pair :=
  match l with
  | [] => [x]
  | y :: l' =>
      if Qle_bool (score y) (score x) then x :: l else y :: insert_desc x l'
  end.

Definition sorted_desc (l : list Pair) : list Pair := foldr insert_desc [] l.

Definition top_pairs (texts : list string) (similarity_matrix : nat → nat → Q)
    (threshold : Q) : list Pair :=
  take top_n (sorted_desc (pairs texts similarity_matrix threshold)).

(** The nearest integer of a rational, a tie going to the even one. *)
Definition rint (q : Q) : Z :=
  let n := Qnum q in
  let d := Zpos (Qden q) in
  let f := (n `div` d)%Z in
  let r := (n `mod` d)%Z in
  match (2 * r ?= d)%Z with
  | Lt => f
  | Gt => (f + 1)%Z
  | Eq => if Z.even f then f else (f + 1)%Z
  end.

(** *** binary64 numbers (numpy.float64) *)

Module b64.

Definition prec : Z := 53.
Definition emax : Z := 1024.

(** The binary64 number nearest to an integer. *)
Definition of_Z (z : Z) : spec_float := binary_normalize prec emax z 0 false.

Definition zero : spec_float := S754_zero false.
Definition one : spec_float := of_Z 1.

Definition mul : spec_float → spec_float → spec_float := SFmul prec emax.
Definition add : spec_float → spec_float → spec_float := SFadd prec emax.
Definition div : spec_float → spec_float → spec_float := SFdiv prec emax.
Definition sqrt : spec_float → spec_float := SFsqrt prec emax.
Definition eqb : spec_float → spec_float → bool := SFeqb.
Definition ltb : spec_float → spec_float → bool := SFltb.

(** The binary64 number nearest to a rational, by the correctly rounded
    division of its numerator by its denominator; a score, which is a
    binary64 number, is mapped to itself. *)
Definition of_Q (q : Q) : spec_float :=
  match Qnum q with
  | Z0 => S754_zero false
  | Zpos n => div (S754_finite false n 0) (S754_finite false (Qden q) 0)
  | Zneg n => div (S754_finite true n 0) (S754_finite false (Qden q) 0)
  end.

(** [numpy.rint]: the nearest integral value, a tie going to the even one;
    the sign is kept, also on a zero result. *)
Definition rint (x : spec_float) : spec_float :=
  match x with
  | S754_finite s m e =>
      match e with
      | Zneg k =>
          match rint (Zpos m # Pos.pow 2 k) with
          | Z0 => S754_zero s
          | z => binary_normalize prec emax (if s then - z else z)%Z 0 s
          end
      | _ => x
      end
  | _ => x
  end.

(** [round(score, 3)] on a [numpy.float64] (line 134):
    [rint(score * 1000) / 1000], each step rounded to binary64. *)
Definition round3 (x : spec_float) : spec_float :=
  div (rint (mul x (of_Z 1000))) (of_Z 1000).



End b64.

(** *** Similarity Engine (line 40)

    Modelled from the spec: [cosine_similarity] is a function of
    scikit-learn, not of the script.  Section 4.2 gives entry (i, j) as the
    dot product of rows i and j once the rows are L2-normalised: a row is
    divided by the square root of the sum of its squares unless that sum is
    zero, and a dot product adds the products term by term, all in
    binary64. *)

Fixpoint dot_from (acc : spec_float) (u v : list spec_float) : spec_float :=
  match u, v with
  | a :: u', b :: v' => dot_from (b64.add acc (b64.mul a b)) u' v'
  | _, _ => acc
  end.

Definition dot (u v : list spec_float) : spec_float := dot_from b64.zero u v.

Definition normalize (u : list spec_float) : list spec_float :=
  let sum := dot u u in
  if b64.eqb sum b64.zero then u else (λ x, b64.div x (b64.sqrt sum)) <$> u.


(** The TF-IDF rows of two identical texts of three different terms: every
    term has frequency 1 and inverse document frequency ln(3/3) + 1 = 1, and
    the vectorizer L2-normalises each row. *)
Definition tfidf_identical_texts : list (list spec_float) :=
  [normalize [b64.one; b64.one; b64.one]; normalize [b64.one; b64.one; b64.one]].

(** *** The table (lines 130-137) *)

Definition Row : Type := string * string * spec_float.

(** [texts[i]]; the indices of a ranked pair are always in range. *)
Definition text_at (texts : list string) (i : nat) : string :=
  default EmptyString (texts !! i).

Definition top_df (texts : list string) (similarity_matrix : nat → nat → Q)
    (threshold : Q) : list Row :=
  (λ p : Pair,
     (text_at texts p.1.1, text_at texts p.1.2, b64.round3 (b64.of_Q (score p))))
    <$> top_pairs texts similarity_matrix threshold.

(** *** The whole run (lines 32-138)

    The graph is drawn (line 116) and the table shown (line 138) only when no
    [st.stop()] was reached before.  [search_keyword] is the text of the
    input box after [.strip()] (line 30). *)
Definition run (analyze : string → list string) (texts : list string)
    (similarity_matrix : nat → nat → Q) (threshold : Q) (search_keyword : string)
  : result (Graph * list Row) :=
  match fit_transform analyze texts with
  | None => Stop VectorizationError
  | Some _ =>
      bind_result (display_graph (build_graph texts similarity_matrix threshold) search_keyword)
        (λ G, Ok (G, top_df texts similarity_matrix threshold))
  end.

(** The ranked table of a run, when it is shown. *)
Definition ranked_table (r : result (Graph * list Row)) : option (list Row) :=
  snd <$> produced r.

(** The drawn graph of a run, when there is one. *)
Definition drawn_graph (r : result (Graph * list Row)) : option Graph :=
  fst <$> produced r.

(** ** Auxiliary notions used in the proofs *)

(** One step of the edge loop, on a pair of the ranked-pair enumeration. *)
Definition add_pair (G : Graph) (p : Pair) : Graph :=
  nx.add_edge G p.1.1 p.1.2 p.2.

(** The key of an undirected pair. *)
Definition ends (a b : nat) : nat * nat := (a `min` b, a `max` b).

(** The sum of the degrees over an adjacency dictionary. *)
Definition degree_sum (m : gmap nat (gmap nat Q)) : nat :=
  map_fold (λ n nbrs acc, nx.degree n nbrs + acc) 0 m.

(** A node whose label contains the keyword. *)
Definition matches (G : Graph) (search_keyword : string) (n : nat) : Prop :=
  ∃ lbl, node G !! n = Some lbl ∧ Str.contains search_keyword lbl = true.

(** The closed 1-hop neighbourhood of the matching nodes. *)
Definition in_neighbourhood (G : Graph) (search_keyword : string) (n : nat) : Prop :=
  ∃ m, matches G search_keyword m ∧ (n = m ∨ is_Some (nx.edge_weight G m n)).

(** The order in which the pair loop enumerates index pairs. *)
Definition lex_lt (a b : nat * nat) : Prop :=
  a.1 < b.1 ∨ (a.1 = b.1 ∧ a.2 < b.2).

(** Non-increasing score. *)
Definition score_ge (a b : Pair) : Prop := (score b <= score a)%Q.

(** The order of the ranked list: higher score first, and among scores that
    compare equal the pair enumerated first. *)
Definition ranks_before (a b : Pair) : Prop :=
  (score b < score a)%Q ∨ ((score a == score b)%Q ∧ lex_lt a.1 b.1).

(** ** Sample inputs

    The analyzer of scikit-learn on ASCII texts: lower-case the text and take
    the maximal runs of two or more word characters
    (token pattern [\b\w\w+\b]). *)

Module ascii_text.

Definition is_word_char (c : ascii) : bool :=
  let n := nat_of_ascii c in
  ((48 <=? n) && (n <=? 57)) || ((65 <=? n) && (n <=? 90)) || (n =? 95)
  || ((97 <=? n) && (n <=? 122)).

Definition lower (c : ascii) : ascii :=
  let n := nat_of_ascii c in
  if (65 <=? n) && (n <=? 90) then ascii_of_nat (n + 32) else c.

(** [cur] is the run of word characters read so far, last one first. *)
Definition flush (cur : list ascii) : list string :=
  if 2 <=? length cur then [String.string_of_list_ascii (rev cur)] else [].

Fixpoint scan (cur : list ascii) (s : string) : list string :=
  match s with
  | EmptyString => flush cur
  | String c s' =>
      if is_word_char c then scan (lower c :: cur) s' else flush cur ++ scan [] s'
  end.

Definition analyze (s : string) : list string := scan [] s.

End ascii_text.

(** Three texts of which the first two are similar. *)
Definition sample_texts : list string :=
  ["solar cell battery"; "battery storage system"; "unrelated robotics topic"]%string.

Definition sample_similarity (i j : nat) : Q :=
  match i, j with
  | 0, 1 | 1, 0 => 1 # 2
  | 0, 0 | 1, 1 | 2, 2 => 1
  | _, _ => 0
  end.

(** ** Node attributes of the drawing (lines 74-82) *)

(** [len(list(G.neighbors(n)))], the colour of node [n] (line 82). *)
Definition node_degree (G : Graph) (n : nat) : nat := size (nx.neighbors G n).

(** The shape of every graph that the networkx operations build: a node has
    an adjacency entry and conversely, neighbours are nodes, a weight reads
    the same in both directions, and no node is its own neighbour. *)
Definition well_formed (G : Graph) : Prop :=
  dom (adj G) = dom (node G) ∧
  (∀ u v, is_Some (nx.edge_weight G u v) → v ∈ dom (node G)) ∧
  (∀ u v, nx.edge_weight G u v = nx.edge_weight G v u) ∧
  (∀ u, nx.edge_weight G u u = None).

(** ** Short labels of the drawing (line 78)

    A Python [str] is a sequence of characters; a label, held here as UTF-8
    bytes, is cut into its characters, each a leading byte with the
    continuation bytes (binary 10xxxxxx) that follow it. *)

Module Label.

Definition is_continuation (c : ascii) : bool :=
  let n := nat_of_ascii c in (128 <=? n) && (n <? 192).

Fixpoint chars (s : string) : list string :=
  match s with
  | EmptyString => []
  | String c s' =>
      match s' with
      | String c' _ =>
          if is_continuation c' then
            match chars s' with
            | g :: gs => String c g :: gs
            | [] => [String c EmptyString]
            end
          else String c EmptyString :: chars s'
      | EmptyString => [String c EmptyString]
      end
  end.

(** [len(s)]. *)
Definition len (s : string) : nat := length (chars s).

(** [''.join(gs)]. *)
Definition join (gs : list string) : string := foldr String.append EmptyString gs.

(** [s[:n]]. *)
Definition slice_to (n : nat) (s : string) : string := join (take n (chars s)).

(** [label[:15] + "..." if len(label) > 15 else label]. *)
Definition short_label (label : string) : string :=
  if 15 <? len label then (slice_to 15 label +:+ "...")%string else label.

(** All bytes are continuation bytes. *)
Fixpoint continues (s : string) : bool :=
  match s with
  | EmptyString => true
  | String c s' => is_continuation c && continues s'
  end.

(** Empty, or starting with the leading byte of a character. *)
Definition starts_fresh (s : string) : bool :=
  match s with
  | EmptyString => true
  | String c _ => negb (is_continuation c)
  end.

(** One character: a leading byte and its continuation bytes. *)
Definition is_char (g : string) : Prop :=
  ∃ c t, g = String c t ∧ is_continuation c = false ∧ continues t = true.

End Label.

(** * Properties *)

(** ** Comparison of scores *)

Lemma meets_iff (threshold s : Q) : meets threshold s = true ↔ (threshold <= s)%Q.
Proof. apply Qle_bool_iff. Qed.

Lemma meets_false_iff (threshold s : Q) : meets threshold s = false ↔ (s < threshold)%Q.
Proof.
  rewrite <- not_true_iff_false, meets_iff. split.
  - apply Qnot_le_lt.
  - apply Qlt_not_le.
Qed.

(** ** Graph operations *)

Section graph_facts.
Implicit Types (G : Graph) (u v a b : nat) (w : Q).

Lemma default_lookup (m : gmap nat (gmap nat Q)) a b :
  default ∅ (m !! a) !! b = m !! a ≫= (.!! b).
Proof. by destruct (m !! a). Qed.

Lemma edge_weight_empty a b : nx.edge_weight nx.empty a b = None.
Proof. done. Qed.

Lemma edge_weight_add_node G n txt a b :
  nx.edge_weight (nx.add_node G n txt) a b =
  if decide (a = n ∧ node G !! n = None) then None else nx.edge_weight G a b.
Proof.
  unfold nx.edge_weight, nx.add_node; simpl.
  destruct (node G !! n) eqn:Hn.
  - rewrite decide_False by (intros [_ ?]; congruence). done.
  - destruct (decide (a = n)) as [->|Hne].
    + rewrite decide_True by done. by rewrite lookup_insert_eq.
    + rewrite decide_False by (intros [? _]; congruence). by rewrite lookup_insert_ne.
Qed.

Lemma edge_weight_add_edge G u v w a b :
  nx.edge_weight (nx.add_edge G u v w) a b =
  if decide ((a = u ∧ b = v) ∨ (a = v ∧ b = u)) then Some w
  else nx.edge_weight G a b.
Proof.
  unfold nx.edge_weight, nx.add_edge; simpl.
  destruct (decide (a = v)) as [->|Hav].
  - rewrite lookup_insert_eq; simpl.
    destruct (decide (b = u)) as [->|Hbu].
    + rewrite lookup_insert_eq. by rewrite decide_True by auto.
    + rewrite lookup_insert_ne by done.
      destruct (decide (v = u)) as [->|Hvu].
      * rewrite lookup_insert_eq; simpl. rewrite lookup_insert_ne by done.
        rewrite decide_False by lia. apply default_lookup.
      * rewrite lookup_insert_ne by done.
        rewrite decide_False by lia. apply default_lookup.
  - rewrite lookup_insert_ne by done.
    destruct (decide (a = u)) as [->|Hau].
    + rewrite lookup_insert_eq; simpl.
      destruct (decide (b = v)) as [->|Hbv].
      * rewrite lookup_insert_eq. by rewrite decide_True by auto.
      * rewrite lookup_insert_ne by done.
        rewrite decide_False by lia. apply default_lookup.
    + rewrite lookup_insert_ne by done.
      rewrite decide_False by lia. done.
Qed.

Lemma node_add_edge G u v w : node (nx.add_edge G u v w) = node G.
Proof. done. Qed.

Lemma has_edge_iff G a b : nx.has_edge G a b = true ↔ is_Some (nx.edge_weight G a b).
Proof. unfold nx.has_edge. by rewrite bool_decide_eq_true. Qed.

Lemma elem_of_neighbors G a b : b ∈ nx.neighbors G a ↔ is_Some (nx.edge_weight G a b).
Proof.
  unfold nx.neighbors, nx.edge_weight.
  rewrite elem_of_dom, default_lookup. done.
Qed.

Lemma elem_of_edges G a b :
  (a, b) ∈ nx.edges G ↔ a ≤ b ∧ is_Some (nx.edge_weight G a b).
Proof.
  unfold nx.edges. rewrite elem_of_set_bind. split.
  - intros (u & Hu & Hin). apply elem_of_map in Hin as (v & Heq & Hv).
    apply elem_of_filter in Hv as [Hle Hv]. simplify_eq.
    by rewrite <- elem_of_neighbors.
  - intros [Hle Hw]. exists a. split.
    + apply elem_of_dom. unfold nx.edge_weight in Hw.
      destruct (adj G !! a); [eauto | by destruct Hw].
    + apply elem_of_map. exists b. split; [done|].
      apply elem_of_filter. by rewrite elem_of_neighbors.
Qed.

End graph_facts.

(** ** Folds over loops *)

Lemma foldl_bind {A B C} (f : A → C → A) (g : B → list C) (l : list B) (a : A) :
  foldl f a (l ≫= g) = foldl (λ a x, foldl f a (g x)) a l.
Proof.
  revert a. induction l as [|x l IH]; intros a; [done|].
  rewrite bind_cons, foldl_app. apply IH.
Qed.

Lemma foldl_ext_in {A B} (f g : A → B → A) (l : list B) (a : A) :
  (∀ a x, x ∈ l → f a x = g a x) → foldl f a l = foldl g a l.
Proof.
  revert a. induction l as [|x l IH]; intros a Hfg; [done|].
  simpl. rewrite Hfg by left. apply IH. intros. apply Hfg. by right.
Qed.

Lemma enumerate_snoc {A} (l : list A) (x : A) :
  enumerate (l ++ [x]) = enumerate l ++ [(length l, x)].
Proof.
  unfold enumerate. rewrite length_app. simpl.
  rewrite seq_app. simpl.
  rewrite zip_with_app by apply length_seq. done.
Qed.

Lemma elem_of_range (a b k : nat) : k ∈ range a b ↔ a ≤ k < b.
Proof. unfold range. rewrite elem_of_seq. lia. Qed.

(** ** Graph Builder *)

Section builder.
Variable similarity_matrix : nat → nat → Q.
Variable threshold : Q.

Lemma add_nodes_snoc (texts : list string) (txt : string) :
  add_nodes (texts ++ [txt]) = nx.add_node (add_nodes texts) (length texts) txt.
Proof. unfold add_nodes. by rewrite enumerate_snoc, foldl_snoc. Qed.

Lemma node_add_nodes (texts : list string) (n : nat) :
  node (add_nodes texts) !! n = texts !! n.
Proof.
  induction texts as [|txt texts IH] using rev_ind; [done|].
  rewrite add_nodes_snoc. simpl.
  destruct (decide (n = length texts)) as [->|Hne].
  - rewrite lookup_insert_eq. by rewrite list_lookup_middle.
  - rewrite lookup_insert_ne by done. rewrite IH.
    destruct (decide (n < length texts)).
    + by rewrite lookup_app_l.
    + rewrite !lookup_ge_None_2; [done| |lia].
      rewrite length_app. simpl. lia.
Qed.

Lemma edge_weight_add_nodes (texts : list string) (a b : nat) :
  nx.edge_weight (add_nodes texts) a b = None.
Proof.
  induction texts as [|txt texts IH] using rev_ind; [done|].
  rewrite add_nodes_snoc, edge_weight_add_node. by case_decide.
Qed.

Lemma elem_of_pairs (texts : list string) (i j : nat) (s : Q) :
  (i, j, s) ∈ pairs texts similarity_matrix threshold ↔
  i < j ∧ j < length texts ∧ meets threshold (similarity_matrix i j) = true
  ∧ s = similarity_matrix i j.
Proof.
  unfold pairs. rewrite list_elem_of_bind. split.
  - intros (i' & Hin & Hi'). apply list_elem_of_bind in Hin as (j' & Hin & Hj').
    apply elem_of_range in Hj'.
    destruct (meets threshold (similarity_matrix i' j')) eqn:Hm.
    + apply list_elem_of_singleton in Hin. simplify_eq. repeat split; [lia|lia|done].
    + by apply elem_of_nil in Hin.
  - intros (Hij & Hj & Hm & ->). exists i. split.
    + apply list_elem_of_bind. exists j. rewrite Hm. split; [by left|].
      apply elem_of_range. lia.
    + apply elem_of_range. lia.
Qed.

(** The edge loop of lines 46-49 visits the pairs of lines 122-126. *)
Lemma build_graph_pairs (texts : list string) :
  build_graph texts similarity_matrix threshold =
  foldl add_pair (add_nodes texts) (pairs texts similarity_matrix threshold).
Proof.
  unfold build_graph, pairs. rewrite foldl_bind.
  apply foldl_ext_in. intros G i _.
  unfold add_edges_from. rewrite foldl_bind.
  apply foldl_ext_in. intros G' j _.
  by destruct (meets threshold (similarity_matrix i j)).
Qed.

Lemma node_foldl_add_pair (ps : list Pair) (G : Graph) :
  node (foldl add_pair G ps) = node G.
Proof. revert G. induction ps as [|p ps IH]; intros G; [done|]. simpl. by rewrite IH. Qed.

Lemma edge_weight_foldl_add_pair (ps : list Pair) (G : Graph) (a b : nat) :
  (∀ p, p ∈ ps → p.1.1 < p.1.2 ∧ p.2 = similarity_matrix p.1.1 p.1.2) →
  nx.edge_weight (foldl add_pair G ps) a b =
  if decide (a ≠ b ∧ ends a b ∈ ps.*1)
  then Some (similarity_matrix (a `min` b) (a `max` b))
  else nx.edge_weight G a b.
Proof.
  induction ps as [|p ps IH] using rev_ind; intros Hps.
  - simpl. rewrite decide_False; [done|]. intros [_ H]. by apply elem_of_nil in H.
  - rewrite foldl_snoc. unfold add_pair at 1. rewrite edge_weight_add_edge.
    destruct p as [[i j] s]. simpl.
    destruct (Hps (i, j, s)) as [Hij Hs]; [apply elem_of_app; right; by left|].
    simpl in Hij, Hs. rewrite fmap_app. simpl.
    destruct (decide (a = i ∧ b = j ∨ a = j ∧ b = i)) as [Hab|Hab].
    + rewrite decide_True; [f_equal; subst s; destruct Hab as [[-> ->]|[-> ->]]; f_equal; lia|].
      split; [lia|]. apply elem_of_app. right. apply list_elem_of_singleton.
      unfold ends. f_equal; lia.
    + rewrite IH by (intros; apply Hps, elem_of_app; by left).
      apply decide_ext. split.
      * intros [? ?]. split; [done|]. apply elem_of_app. by left.
      * intros [Hne Hin]. split; [done|].
        apply elem_of_app in Hin as [?|Hin]; [done|].
        apply list_elem_of_singleton in Hin. unfold ends in Hin.
        exfalso. apply Hab. simplify_eq. lia.
Qed.

(** Every edge weight of the built graph, in both directions. *)
Lemma edge_weight_build_graph (texts : list string) (a b : nat) :
  nx.edge_weight (build_graph texts similarity_matrix threshold) a b =
  if decide (a ≠ b ∧ a < length texts ∧ b < length texts
             ∧ meets threshold (similarity_matrix (a `min` b) (a `max` b)) = true)
  then Some (similarity_matrix (a `min` b) (a `max` b))
  else None.
Proof.
  rewrite build_graph_pairs, edge_weight_foldl_add_pair.
  - rewrite edge_weight_add_nodes. apply decide_ext.
    rewrite list_elem_of_fmap. split.
    + intros (Hne & [[i j] s] & Heq & Hin). simpl in Heq. unfold ends in Heq.
      apply elem_of_pairs in Hin as (? & ? & ? & ?).
      injection Heq as <- <-. repeat split; [done|lia|lia|done].
    + intros (Hne & Ha & Hb & Hm). split; [done|].
      exists (ends a b, similarity_matrix (a `min` b) (a `max` b)). split; [done|].
      apply elem_of_pairs. repeat split; [lia|lia|done].
  - intros [[i j] s] Hin. apply elem_of_pairs in Hin as (? & ? & ? & ?). done.
Qed.

Lemma node_build_graph (texts : list string) (n : nat) :
  node (build_graph texts similarity_matrix threshold) !! n = texts !! n.
Proof. by rewrite build_graph_pairs, node_foldl_add_pair, node_add_nodes. Qed.

End builder.

(** ** Counting nodes and edges *)

Section counting.
Implicit Types (G : Graph).

Lemma number_of_edges_degree_sum G : nx.number_of_edges G = degree_sum (adj G) / 2.
Proof. done. Qed.

Lemma degree_sum_delete (m : gmap nat (gmap nat Q)) n nbrs :
  m !! n = Some nbrs →
  degree_sum m = nx.degree n nbrs + degree_sum (delete n m).
Proof.
  intros Hn. unfold degree_sum.
  apply (map_fold_delete_L (λ n nbrs acc, nx.degree n nbrs + acc)); [|done].
  intros. lia.
Qed.

Lemma degree_sum_0 (m : gmap nat (gmap nat Q)) :
  (∀ n nbrs, m !! n = Some nbrs → nbrs = ∅) → degree_sum m = 0.
Proof.
  unfold degree_sum.
  apply (map_fold_weak_ind
           (λ r (m : gmap nat (gmap nat Q)),
              (∀ n nbrs, m !! n = Some nbrs → nbrs = ∅) → r = 0)); [done|].
  intros n nbrs m' r Hn IH Hall.
  rewrite IH.
  - rewrite (Hall n nbrs) by apply lookup_insert_eq.
    unfold nx.degree. rewrite map_size_empty, dom_empty_L.
    by rewrite decide_False by set_solver.
  - intros k v Hk. apply (Hall k). rewrite lookup_insert_ne; [done|].
    intros ->. congruence.
Qed.

Lemma degree_ge_1 n (nbrs : gmap nat Q) v : is_Some (nbrs !! v) → 1 ≤ nx.degree n nbrs.
Proof.
  intros Hv. unfold nx.degree.
  assert (size nbrs ≠ 0); [|lia].
  apply map_size_non_empty_iff. intros ->.
  rewrite lookup_empty in Hv. by destruct Hv.
Qed.

(** A graph without edges has edge count 0. *)
Lemma number_of_edges_0 G :
  (∀ u v, nx.edge_weight G u v = None) → nx.number_of_edges G = 0.
Proof.
  intros Hnone. rewrite number_of_edges_degree_sum, degree_sum_0; [done|].
  intros n nbrs Hn. apply map_eq. intros v. rewrite lookup_empty.
  specialize (Hnone n v). unfold nx.edge_weight in Hnone. by rewrite Hn in Hnone.
Qed.

(** An edge stored in both directions is counted. *)
Lemma number_of_edges_pos G u v :
  u ≠ v → is_Some (nx.edge_weight G u v) → is_Some (nx.edge_weight G v u) →
  0 < nx.number_of_edges G.
Proof.
  unfold nx.edge_weight. intros Hne Huv Hvu.
  destruct (adj G !! u) as [nu|] eqn:Hu; [simpl in Huv|by destruct Huv].
  destruct (adj G !! v) as [nv|] eqn:Hv; [simpl in Hvu|by destruct Hvu].
  rewrite number_of_edges_degree_sum.
  rewrite (degree_sum_delete _ u nu) by done.
  rewrite (degree_sum_delete _ v nv) by (by rewrite lookup_delete_ne).
  pose proof (degree_ge_1 u nu v Huv). pose proof (degree_ge_1 v nv u Hvu).
  apply (Nat.div_le_lower_bound _ 2 1); lia.
Qed.

Lemma number_of_nodes_add_nodes (texts : list string) :
  nx.number_of_nodes (add_nodes texts) = length texts.
Proof.
  unfold nx.number_of_nodes.
  induction texts as [|txt texts IH] using rev_ind; [done|].
  rewrite add_nodes_snoc. simpl.
  rewrite map_size_insert_None, IH, length_app; [simpl; lia|].
  rewrite node_add_nodes. by apply lookup_ge_None_2.
Qed.

Lemma number_of_nodes_build_graph texts similarity_matrix threshold :
  nx.number_of_nodes (build_graph texts similarity_matrix threshold) = length texts.
Proof.
  unfold nx.number_of_nodes.
  rewrite build_graph_pairs, node_foldl_add_pair.
  apply number_of_nodes_add_nodes.
Qed.

(** The built graph has no edge exactly when no pair meets the threshold. *)
Lemma number_of_edges_build_graph_0 texts similarity_matrix threshold :
  nx.number_of_edges (build_graph texts similarity_matrix threshold) = 0 ↔
  pairs texts similarity_matrix threshold = [].
Proof.
  split.
  - intros H0. destruct (pairs texts similarity_matrix threshold) as [|[[i j] s] ps] eqn:Hps; [done|].
    assert (Hin : (i, j, s) ∈ pairs texts similarity_matrix threshold)
      by (rewrite Hps; left).
    apply elem_of_pairs in Hin as (Hij & Hj & Hm & _).
    pose proof (number_of_edges_pos (build_graph texts similarity_matrix threshold) i j) as Hpos.
    rewrite !edge_weight_build_graph in Hpos.
    rewrite !decide_True in Hpos.
    + specialize (Hpos ltac:(lia) ltac:(eauto) ltac:(eauto)). lia.
    + repeat split; [lia|lia|lia|].
      by replace (j `min` i) with i by lia; replace (j `max` i) with j by lia.
    + repeat split; [lia|lia|lia|].
      by replace (i `min` j) with i by lia; replace (i `max` j) with j by lia.
  - intros Hps. apply number_of_edges_0. intros u v.
    rewrite edge_weight_build_graph. rewrite decide_False; [done|].
    intros (Hne & Hu & Hv & Hm).
    assert (Hin : (ends u v, similarity_matrix (u `min` v) (u `max` v))
                  ∈ pairs texts similarity_matrix threshold).
    { apply elem_of_pairs. repeat split; [lia|lia|done]. }
    rewrite Hps in Hin. by apply elem_of_nil in Hin.
Qed.

End counting.

(** ** Substring test *)

Section substring.
Local Open Scope string_scope.

Lemma is_prefix_spec (p s : string) :
  Str.is_prefix p s = true ↔ ∃ post, s = p +:+ post.
Proof.
  revert s. induction p as [|a p IH]; intros s; simpl.
  - split; [eauto|done].
  - destruct s as [|b s].
    + split; [done|]. intros [post Hpost]. discriminate.
    + case_decide as Hab.
      * subst b. rewrite IH. split; intros [post Hpost]; exists post.
        -- by subst s.
        -- by injection Hpost.
      * split; [done|]. intros [post Hpost]. by injection Hpost.
Qed.

(** [kw in s] holds exactly when [s] is [pre + kw + post]. *)
Lemma contains_spec (kw s : string) :
  Str.contains kw s = true ↔ ∃ pre post, s = pre +:+ kw +:+ post.
Proof.
  induction s as [|b s IH]; simpl; rewrite orb_true_iff, is_prefix_spec.
  - split.
    + intros [[post ->] | ?]; [|done]. by exists "", post.
    + intros (pre & post & Heq). left. exists post.
      destruct pre; [done|discriminate].
  - rewrite IH. split.
    + intros [[post ->] | (pre & post & ->)].
      * by exists "", post.
      * by exists (String b pre), post.
    + intros (pre & post & Heq). destruct pre as [|c pre].
      * left. by exists post.
      * right. exists pre, post. by injection Heq.
Qed.

Lemma contains_empty_keyword (s : string) : Str.contains "" s = true.
Proof. by destruct s. Qed.

(** The test compares characters as they are: no case folding. *)
Example contains_is_case_sensitive :
  Str.contains "cell" "solar cell" = true ∧ Str.contains "Cell" "solar cell" = false.
Proof. split; reflexivity. Qed.

End substring.

(** ** Keyword Filter *)

Section keyword_filter_facts.
Implicit Types (G : Graph) (kw : string) (S : gset nat).

Lemma elem_of_matched_nodes G kw n :
  n ∈ matched_nodes G kw ↔ matches G kw n.
Proof.
  unfold matched_nodes, matches. rewrite list_elem_of_fmap. split.
  - intros ([n' lbl] & -> & Hin). apply list_elem_of_filter in Hin as [Hc Hin].
    apply elem_of_map_to_list in Hin. simpl in *.
    exists lbl. split; [done|]. by apply Is_true_true.
  - intros (lbl & Hn & Hc). exists (n, lbl). split; [done|].
    apply list_elem_of_filter. split; [by apply Is_true_true|].
    by apply elem_of_map_to_list.
Qed.

Lemma matches_spec G kw n :
  matches G kw n ↔
  ∃ lbl pre post, node G !! n = Some lbl ∧ lbl = (pre +:+ kw +:+ post)%string.
Proof.
  unfold matches. split.
  - intros (lbl & Hn & Hc). apply contains_spec in Hc as (pre & post & ->). eauto.
  - intros (lbl & pre & post & Hn & ->). exists (pre +:+ kw +:+ post)%string.
    split; [done|]. apply contains_spec. eauto.
Qed.

Lemma elem_of_sub_nodes_acc G (ms : list nat) (acc : gset nat) x :
  x ∈ foldl (λ acc n, acc ∪ {[n]} ∪ nx.neighbors G n) acc ms ↔
  x ∈ acc ∨ ∃ m, m ∈ ms ∧ (x = m ∨ x ∈ nx.neighbors G m).
Proof.
  revert acc. induction ms as [|m ms IH]; intros acc; simpl.
  - split; [by left|]. intros [?|(m & Hm & _)]; [done|]. by apply elem_of_nil in Hm.
  - rewrite IH, !elem_of_union, elem_of_singleton. split.
    + intros [[[? | ->] | ?] | (m' & Hm' & Hx)].
      * by left.
      * right. exists m. split; [left|by left].
      * right. exists m. split; [left|by right].
      * right. exists m'. split; [by right|done].
    + intros [?|(m' & Hm' & Hx)]; [by left; left; left|].
      apply elem_of_cons in Hm' as [-> | Hm'].
      * destruct Hx as [-> | ?]; [by left; left; right|by left; right].
      * right. by exists m'.
Qed.

Lemma elem_of_sub_nodes G kw x :
  x ∈ sub_nodes G (matched_nodes G kw) ↔ in_neighbourhood G kw x.
Proof.
  unfold sub_nodes, in_neighbourhood. rewrite elem_of_sub_nodes_acc. split.
  - intros [?|(m & Hm & Hx)]; [set_solver|].
    exists m. rewrite <- elem_of_matched_nodes, <- elem_of_neighbors. done.
  - intros (m & Hm & Hx). right. exists m.
    rewrite elem_of_matched_nodes, elem_of_neighbors. done.
Qed.

Lemma node_subgraph G S n :
  node (nx.subgraph G S) !! n = if decide (n ∈ S) then node G !! n else None.
Proof.
  simpl. rewrite map_lookup_filter.
  destruct (node G !! n) as [lbl|]; simpl; [|by case_decide].
  case_decide; [by rewrite option_guard_True|by rewrite option_guard_False].
Qed.

Lemma edge_weight_subgraph G S a b :
  nx.edge_weight (nx.subgraph G S) a b =
  if decide (a ∈ S ∧ b ∈ S) then nx.edge_weight G a b else None.
Proof.
  unfold nx.edge_weight. simpl. rewrite lookup_fmap, map_lookup_filter.
  destruct (adj G !! a) as [nbrs|]; simpl; [|by case_decide].
  destruct (decide (a ∈ S)) as [Ha|Ha].
  - rewrite option_guard_True by done. simpl. rewrite map_lookup_filter.
    destruct (nbrs !! b) as [w|]; simpl; [|by case_decide].
    destruct (decide (b ∈ S)) as [Hb|Hb].
    + rewrite option_guard_True by done. by rewrite decide_True.
    + rewrite option_guard_False by done. rewrite decide_False; [done|]. by intros [_ ?].
  - rewrite option_guard_False by done. rewrite decide_False; [done|]. by intros [? _].
Qed.

Lemma subgraph_idemp G S : nx.subgraph (nx.subgraph G S) S = nx.subgraph G S.
Proof.
  unfold nx.subgraph. simpl. f_equal.
  - apply map_filter_id. intros n lbl Hn.
    by apply map_lookup_filter_Some in Hn as [_ ?].
  - rewrite map_filter_id.
    + rewrite <- map_fmap_compose. apply map_fmap_ext.
      intros n nbrs _. simpl. apply map_filter_id.
      intros v w Hv. by apply map_lookup_filter_Some in Hv as [_ ?].
    + intros n nbrs Hn. simpl in Hn. rewrite lookup_fmap in Hn.
      destruct (filter (λ p : nat * gmap nat Q, p.1 ∈ S) (adj G) !! n) as [x|] eqn:Hf;
        [|done].
      by apply map_lookup_filter_Some in Hf as [_ ?].
Qed.

Lemma matched_nodes_nil G kw : matched_nodes G kw = [] ↔ ∀ n, ¬ matches G kw n.
Proof.
  split.
  - intros Hnil n Hn. apply elem_of_matched_nodes in Hn.
    rewrite Hnil in Hn. by apply elem_of_nil in Hn.
  - intros Hno. apply elem_of_nil_inv. intros n Hn.
    apply (Hno n). by apply elem_of_matched_nodes.
Qed.

(** The filter on a non-empty keyword that matches. *)
Lemma keyword_filter_matched G kw :
  Str.truthy kw = true → matched_nodes G kw ≠ [] →
  keyword_filter G kw = Ok (nx.subgraph G (sub_nodes G (matched_nodes G kw))).
Proof.
  intros Hkw Hm. unfold keyword_filter. rewrite Hkw.
  by destruct (matched_nodes G kw).
Qed.

Lemma matches_subgraph G kw n :
  matches (nx.subgraph G (sub_nodes G (matched_nodes G kw))) kw n ↔ matches G kw n.
Proof.
  unfold matches. setoid_rewrite node_subgraph. split.
  - intros (lbl & Hn & Hc). case_decide; [eauto|done].
  - intros (lbl & Hn & Hc). exists lbl. split; [|done].
    rewrite decide_True; [done|]. apply elem_of_sub_nodes.
    exists n. split; [by exists lbl|by left].
Qed.

Lemma in_neighbourhood_subgraph G kw n :
  in_neighbourhood (nx.subgraph G (sub_nodes G (matched_nodes G kw))) kw n ↔
  in_neighbourhood G kw n.
Proof.
  unfold in_neighbourhood. setoid_rewrite matches_subgraph.
  setoid_rewrite edge_weight_subgraph. split.
  - intros (m & Hm & [-> | Hw]); exists m; (split; [done|]); [by left|].
    right. by case_decide.
  - intros (m & Hm & [-> | Hw]); exists m; (split; [done|]); [by left|].
    right. rewrite decide_True; [done|].
    rewrite !elem_of_sub_nodes. split; exists m; (split; [done|]); [by left|by right].
Qed.

Lemma sub_nodes_subgraph G kw :
  let G' := nx.subgraph G (sub_nodes G (matched_nodes G kw)) in
  sub_nodes G' (matched_nodes G' kw) = sub_nodes G (matched_nodes G kw).
Proof.
  intros G'. apply set_eq. intros x.
  rewrite !elem_of_sub_nodes. apply in_neighbourhood_subgraph.
Qed.

End keyword_filter_facts.

(** ** Ranked Pair Extractor *)

Section ranking.
Implicit Types (x y : Pair) (l : list Pair).

Lemma ranks_before_score_ge x y : ranks_before x y → score_ge x y.
Proof.
  unfold ranks_before, score_ge. intros [Hlt|[Heq _]].
  - by apply Qlt_le_weak.
  - rewrite Heq. apply Qle_refl.
Qed.

Lemma StronglySorted_weaken {A} (R1 R2 : relation A) (l : list A) :
  (∀ a b, R1 a b → R2 a b) → StronglySorted R1 l → StronglySorted R2 l.
Proof.
  intros HR. induction 1 as [|a l Hl IH Hall]; constructor; [done|].
  eapply Forall_impl; [exact Hall|]. intros b. apply HR.
Qed.

Lemma StronglySorted_bind {A B} (R0 : relation A) (R : relation B)
    (g : A → list B) (l : list A) :
  StronglySorted R0 l →
  (∀ a, a ∈ l → StronglySorted R (g a)) →
  (∀ a a' b b', R0 a a' → b ∈ g a → b' ∈ g a' → R b b') →
  StronglySorted R (l ≫= g).
Proof.
  intros Hl Hin Hcross. induction Hl as [|a l Hl IH Hall]; [constructor|].
  rewrite bind_cons. apply StronglySorted_app_2.
  - intros b b' Hb Hb'. apply list_elem_of_bind in Hb' as (a' & Hb' & Ha').
    rewrite Forall_forall in Hall. eapply Hcross; [by apply Hall|done|done].
  - apply Hin. left.
  - apply IH. intros a' Ha'. apply Hin. by right.
Qed.

Lemma StronglySorted_range (a b : nat) : StronglySorted lt (range a b).
Proof.
  unfold range. generalize (b - a) as n. intros n. revert a.
  induction n as [|n IH]; intros a; simpl; constructor; [apply IH|].
  apply Forall_forall. intros k Hk. apply elem_of_seq in Hk. lia.
Qed.

(** The pair loop enumerates index pairs in increasing order. *)
Lemma pairs_enumeration_order texts similarity_matrix threshold :
  StronglySorted (λ x y, lex_lt x.1 y.1) (pairs texts similarity_matrix threshold).
Proof.
  unfold pairs. eapply StronglySorted_bind; [apply StronglySorted_range| |].
  - intros i _. eapply StronglySorted_bind; [apply StronglySorted_range| |].
    + intros j _. destruct (meets _ _); repeat constructor.
    + intros j j' b b' Hjj Hb Hb'.
      destruct (meets threshold (similarity_matrix i j)); [|by apply elem_of_nil in Hb].
      destruct (meets threshold (similarity_matrix i j')); [|by apply elem_of_nil in Hb'].
      apply list_elem_of_singleton in Hb, Hb'. subst. right. simpl. lia.
  - intros i i' b b' Hii Hb Hb'.
    apply list_elem_of_bind in Hb as (j & Hb & _).
    apply list_elem_of_bind in Hb' as (j' & Hb' & _).
    destruct (meets threshold (similarity_matrix i j)); [|by apply elem_of_nil in Hb].
    destruct (meets threshold (similarity_matrix i' j')); [|by apply elem_of_nil in Hb'].
    apply list_elem_of_singleton in Hb, Hb'. subst. left. simpl. lia.
Qed.

Lemma insert_desc_Permutation x l : insert_desc x l ≡ₚ x :: l.
Proof.
  induction l as [|y l IH]; simpl; [done|].
  destruct (Qle_bool (score y) (score x)); [done|].
  rewrite IH. apply Permutation_swap.
Qed.

Lemma sorted_desc_Permutation l : sorted_desc l ≡ₚ l.
Proof.
  induction l as [|x l IH]; simpl; [done|].
  by rewrite insert_desc_Permutation, IH.
Qed.

(** Inserting an element that was enumerated before all of [l]. *)
Lemma insert_desc_sorted x l :
  StronglySorted ranks_before l →
  Forall (λ y, lex_lt x.1 y.1) l →
  StronglySorted ranks_before (insert_desc x l).
Proof.
  intros Hl Hx. induction Hl as [|y l Hl IH Hy]; simpl.
  - repeat constructor.
  - apply Forall_cons in Hx as [Hxy Hx].
    destruct (Qle_bool (score y) (score x)) eqn:Hle.
    + apply Qle_bool_iff in Hle.
      assert (Hfirst : ranks_before x y).
      { destruct (Qle_lt_or_eq _ _ Hle) as [?|Heq]; [by left|right].
        split; [by symmetry|done]. }
      constructor; [by constructor|]. constructor; [done|].
      rewrite Forall_forall in Hy, Hx. apply Forall_forall. intros z Hz.
      pose proof (ranks_before_score_ge _ _ (Hy z Hz)) as Hyz. unfold score_ge in Hyz.
      assert (Hzx : (score z <= score x)%Q) by (by eapply Qle_trans).
      destruct (Qle_lt_or_eq _ _ Hzx) as [?|Heq]; [by left|right].
      split; [by symmetry|]. by apply Hx.
    + assert (Hlt : (score x < score y)%Q).
      { apply Qnot_le_lt. intros Hc. apply Qle_bool_iff in Hc. congruence. }
      constructor; [by apply IH|].
      rewrite (insert_desc_Permutation x l). constructor; [by left|done].
Qed.

(** Stability: the sort orders by score and keeps the enumeration order
    among scores that compare equal. *)
Lemma sorted_desc_sorted l :
  StronglySorted (λ x y, lex_lt x.1 y.1) l →
  StronglySorted ranks_before (sorted_desc l).
Proof.
  induction 1 as [|x l Hl IH Hx]; simpl; [constructor|].
  apply insert_desc_sorted; [done|].
  by rewrite sorted_desc_Permutation.
Qed.


Lemma elem_of_top_pairs_pairs texts similarity_matrix threshold x :
  x ∈ top_pairs texts similarity_matrix threshold →
  x ∈ pairs texts similarity_matrix threshold.
Proof.
  unfold top_pairs. intros Hx.
  rewrite <- (sorted_desc_Permutation (pairs texts similarity_matrix threshold)).
  rewrite <- (take_drop top_n (sorted_desc _)). apply elem_of_app. by left.
Qed.

Lemma length_top_pairs texts similarity_matrix threshold :
  length (top_pairs texts similarity_matrix threshold) =
  top_n `min` length (pairs texts similarity_matrix threshold).
Proof.
  unfold top_pairs. by rewrite length_take, sorted_desc_Permutation.
Qed.


End ranking.

(** ** Rounding for display *)

Section rounding.
Local Open Scope Q_scope.

(** [rint] returns an integer at distance at most 1/2. *)
Lemma rint_close (q : Q) :
  inject_Z (rint q) - q <= 1 # 2 ∧ q - inject_Z (rint q) <= 1 # 2.
Proof.
  destruct q as [n d]. unfold rint. simpl.
  pose proof (Z.div_mod n (Zpos d) ltac:(lia)) as Hdm.
  pose proof (Z.mod_pos_bound n (Zpos d) ltac:(lia)) as Hb.
  set (f := (n `div` Z.pos d)%Z) in *. set (r := (n `mod` Z.pos d)%Z) in *.
  destruct (Z.compare_spec (2 * r) (Z.pos d)) as [He|Hl|Hg];
    [destruct (Z.even f)| |];
    unfold Qle, Qminus, Qplus, Qopp, inject_Z; simpl; nia.
Qed.

(** The rounding of line 134 on the values [0.4995], [0.0025], [1/3] and
    [1.0000000000000002]: the first is shown as [0.5] and the second as
    [0.002], the products [499.5] and [2.5] being exact ties in binary64. *)
Example round3_examples :
  b64.round3 (b64.of_Q (4995 # 10000)) = b64.of_Q (1 # 2) ∧
  b64.round3 (b64.of_Q (25 # 10000)) = b64.of_Q (2 # 1000) ∧
  b64.round3 (b64.of_Q (1 # 3)) = b64.of_Q (333 # 1000) ∧
  b64.round3 (S754_finite false 4503599627370497 (-52)) = b64.one.
Proof. repeat split; vm_compute; reflexivity. Qed.

End rounding.

(** ** The built graph *)

Lemma has_edge_build_graph texts similarity_matrix threshold (i j : nat) :
  i < j →
  nx.has_edge (build_graph texts similarity_matrix threshold) i j = true ↔
  j < length texts ∧ (threshold <= similarity_matrix i j)%Q.
Proof.
  intros Hij. rewrite has_edge_iff, edge_weight_build_graph.
  replace (i `min` j) with i by lia. replace (i `max` j) with j by lia.
  rewrite <- meets_iff. case_decide as H.
  - split; [tauto|eauto].
  - split; [by intros []|]. intros []. exfalso. apply H. repeat split; [lia|lia|done|done].
Qed.

Lemma edge_weight_build_graph_sym texts similarity_matrix threshold (i j : nat) :
  nx.edge_weight (build_graph texts similarity_matrix threshold) i j =
  nx.edge_weight (build_graph texts similarity_matrix threshold) j i.
Proof.
  rewrite !edge_weight_build_graph.
  rewrite (Nat.min_comm j i), (Nat.max_comm j i).
  apply decide_ext. intuition.
Qed.

(** C1. For every corpus, similarity matrix and threshold the built graph has
    exactly the indices [0..N-1] as nodes, each labelled with its text (so
    [N] nodes, connected or not); for [i < j] it has the edge [{i, j}] exactly
    when [j] is an index and [sim[i][j] >= threshold]; the weight of that
    edge, read in either direction, is [sim[i][j]]; edges are undirected and
    no node is joined to itself. *)
Theorem C1_build_graph_nodes_and_edges
    (texts : list string) (similarity_matrix : nat → nat → Q) (threshold : Q) :
  let G := build_graph texts similarity_matrix threshold in
  (∀ n, node G !! n = texts !! n) ∧
  nx.number_of_nodes G = length texts ∧
  (∀ i j, i < j →
     nx.has_edge G i j = true ↔
     j < length texts ∧ (threshold <= similarity_matrix i j)%Q) ∧
  (∀ i j, (i, j) ∈ nx.edges G ↔
     i < j ∧ j < length texts ∧ (threshold <= similarity_matrix i j)%Q) ∧
  (∀ i j, i < j → nx.has_edge G i j = true →
     nx.edge_weight G i j = Some (similarity_matrix i j) ∧
     nx.edge_weight G j i = Some (similarity_matrix i j)) ∧
  (∀ i j, nx.has_edge G i j = nx.has_edge G j i) ∧
  (∀ i, nx.has_edge G i i = false).
Proof.
  intros G. subst G.
  split; [apply node_build_graph|].
  split; [apply number_of_nodes_build_graph|].
  split; [intros i j Hij; by apply has_edge_build_graph|].
  split; [|split; [|split]].
  - intros i j. rewrite elem_of_edges, <- has_edge_iff. split.
    + intros [Hle He].
      assert (i < j) as Hij.
      { destruct (decide (i = j)) as [->|]; [|lia].
        apply has_edge_iff in He. rewrite edge_weight_build_graph in He.
        rewrite decide_False in He by (by intros [? _]). by destruct He. }
      split; [done|]. by apply has_edge_build_graph.
    + intros (Hij & Hj & Hm). split; [lia|]. by apply has_edge_build_graph.
  - intros i j Hij He. apply has_edge_iff in He.
    rewrite <- (edge_weight_build_graph_sym _ _ _ i j).
    rewrite edge_weight_build_graph in He |- *.
    replace (i `min` j) with i in * by lia. replace (i `max` j) with j in * by lia.
    by case_decide; [|destruct He].
  - intros i j. unfold nx.has_edge. by rewrite edge_weight_build_graph_sym.
  - intros i. unfold nx.has_edge. rewrite edge_weight_build_graph.
    rewrite decide_False by (by intros [? _]).
    apply bool_decide_eq_false. by intros [].
Qed.

(** Three identical texts at threshold 0.99: a triangle. *)
Example build_graph_triangle :
  let G := build_graph ["nano"; "nano"; "nano"]%string (λ _ _, 1%Q) (99 # 100) in
  nx.number_of_nodes G = 3 ∧ nx.number_of_edges G = 3 ∧
  nx.edges G = {[(0, 1); (0, 2); (1, 2)]}.
Proof. repeat split; vm_compute; reflexivity. Qed.

(** C2. Raising the threshold only removes edges: for [t1 < t2] every edge of
    the graph built at [t2] is an edge of the graph built at [t1], with the
    same weight. *)
Theorem C2_threshold_monotone
    (texts : list string) (similarity_matrix : nat → nat → Q) (t1 t2 : Q) :
  (t1 < t2)%Q →
  nx.edges (build_graph texts similarity_matrix t2) ⊆
    nx.edges (build_graph texts similarity_matrix t1) ∧
  (∀ i j w, nx.edge_weight (build_graph texts similarity_matrix t2) i j = Some w →
            nx.edge_weight (build_graph texts similarity_matrix t1) i j = Some w).
Proof.
  intros Hlt.
  assert (Hw : ∀ i j w,
    nx.edge_weight (build_graph texts similarity_matrix t2) i j = Some w →
    nx.edge_weight (build_graph texts similarity_matrix t1) i j = Some w).
  { intros i j w. rewrite !edge_weight_build_graph.
    case_decide as H2; [|done]. intros Hw.
    rewrite decide_True; [done|].
    destruct H2 as (? & ? & ? & Hm). repeat split; [done..|].
    apply meets_iff. apply meets_iff in Hm.
    eapply Qle_trans; [apply Qlt_le_weak, Hlt|done]. }
  split; [|done].
  intros [i j] Hin. apply elem_of_edges in Hin as [Hle [w Hin]].
  apply elem_of_edges. split; [done|]. exists w. by apply Hw.
Qed.

Lemma C2_threshold_monotone_witness :
  nx.edges (build_graph sample_texts sample_similarity (6 # 10)) ⊆
    nx.edges (build_graph sample_texts sample_similarity (3 # 10)) ∧
  nx.edges (build_graph sample_texts sample_similarity (3 # 10)) ≠
    nx.edges (build_graph sample_texts sample_similarity (6 # 10)).
Proof.
  split.
  - apply (C2_threshold_monotone sample_texts sample_similarity (3 # 10) (6 # 10)).
    reflexivity.
  - vm_compute. discriminate.
Defined.

(** ** The keyword filter *)

Lemma truthy_iff (s : string) : Str.truthy s = true ↔ s ≠ EmptyString.
Proof. by destruct s. Qed.

Lemma matched_nodes_not_nil (G : Graph) (kw : string) :
  (∃ n, matches G kw n) → matched_nodes G kw ≠ [].
Proof.
  intros [n Hn] Hnil. by apply (proj1 (matched_nodes_nil G kw) Hnil n).
Qed.

(** C4. On a non-empty keyword that is a substring of at least one label the
    filter returns the subgraph induced by the matching nodes and their
    direct neighbours: a node is kept, with its label, exactly when it lies
    in that closed neighbourhood, whether or not its own label matches; an
    edge is kept, with its weight, exactly when both of its ends are kept. *)
Theorem C4_keyword_filter_closed_neighbourhood (G : Graph) (search_keyword : string) :
  search_keyword ≠ EmptyString →
  (∃ n, matches G search_keyword n) →
  ∃ G', keyword_filter G search_keyword = Ok G' ∧
    (∀ n lbl, node G' !! n = Some lbl ↔
       node G !! n = Some lbl ∧ in_neighbourhood G search_keyword n) ∧
    (∀ a b w, nx.edge_weight G' a b = Some w ↔
       nx.edge_weight G a b = Some w ∧
       in_neighbourhood G search_keyword a ∧ in_neighbourhood G search_keyword b) ∧
    (∀ m n, matches G search_keyword m → is_Some (nx.edge_weight G m n) →
       node G' !! n = node G !! n).
Proof.
  intros Hkw Hm.
  exists (nx.subgraph G (sub_nodes G (matched_nodes G search_keyword))).
  split; [|split; [|split]].
  - apply keyword_filter_matched; [by apply truthy_iff|by apply matched_nodes_not_nil].
  - intros n lbl. rewrite node_subgraph, <- elem_of_sub_nodes.
    case_decide; [tauto|]. split; [done|tauto].
  - intros a b w. rewrite edge_weight_subgraph, <- !elem_of_sub_nodes.
    case_decide; [tauto|]. split; [done|tauto].
  - intros m n Hmm Hmn. rewrite node_subgraph, decide_True; [done|].
    apply elem_of_sub_nodes. exists m. auto.
Qed.

Lemma C4_keyword_filter_closed_neighbourhood_witness :
  let G := build_graph sample_texts sample_similarity (3 # 10) in
  ∃ G', keyword_filter G "solar" = Ok G' ∧
    (∀ n lbl, node G' !! n = Some lbl ↔
       node G !! n = Some lbl ∧ in_neighbourhood G "solar" n) ∧
    (∀ a b w, nx.edge_weight G' a b = Some w ↔
       nx.edge_weight G a b = Some w ∧
       in_neighbourhood G "solar" a ∧ in_neighbourhood G "solar" b) ∧
    (∀ m n, matches G "solar" m → is_Some (nx.edge_weight G m n) →
       node G' !! n = node G !! n).
Proof.
  apply (C4_keyword_filter_closed_neighbourhood
           (build_graph sample_texts sample_similarity (3 # 10)) "solar").
  - discriminate.
  - exists 0, "solar cell battery"%string. split; reflexivity.
Defined.

(** C5. The keyword filter is idempotent: when the keyword matches at least
    one label, filtering the filtered graph again returns it unchanged (same
    nodes, labels, edges and weights). *)
Theorem C5_keyword_filter_idempotent (G : Graph) (search_keyword : string) :
  (∃ n, matches G search_keyword n) →
  ∃ G', keyword_filter G search_keyword = Ok G' ∧
        keyword_filter G' search_keyword = Ok G'.
Proof.
  intros Hm. destruct (Str.truthy search_keyword) eqn:Hkw.
  - pose proof (matched_nodes_not_nil G search_keyword Hm) as Hne.
    eexists. split; [by apply keyword_filter_matched|].
    rewrite keyword_filter_matched; [|done|].
    + f_equal. rewrite sub_nodes_subgraph. apply subgraph_idemp.
    + apply matched_nodes_not_nil. destruct Hm as [n Hn]. exists n.
      by apply matches_subgraph.
  - exists G. unfold keyword_filter. by rewrite Hkw.
Qed.

Lemma C5_keyword_filter_idempotent_witness :
  ∃ G', keyword_filter (build_graph sample_texts sample_similarity (3 # 10)) "solar" = Ok G' ∧
        keyword_filter G' "solar" = Ok G'.
Proof.
  apply (C5_keyword_filter_idempotent
           (build_graph sample_texts sample_similarity (3 # 10)) "solar").
  exists 0, "solar cell battery"%string. split; reflexivity.
Defined.

Example keyword_filter_sample :
  keyword_filter (build_graph sample_texts sample_similarity (3 # 10)) "solar" =
  Ok (mkGraph {[0 := "solar cell battery"%string; 1 := "battery storage system"%string]}
              {[0 := {[1 := 1 # 2]}; 1 := {[0 := 1 # 2]}]}).
Proof. vm_compute. reflexivity. Qed.

Example keyword_is_case_sensitive :
  keyword_filter (build_graph sample_texts sample_similarity (3 # 10)) "Solar" =
  Stop NoMatchError.
Proof. vm_compute. reflexivity. Qed.

(** ** The whole run *)

Lemma fit_transform_None (analyze : string → list string) (texts : list string) :
  fit_transform analyze texts = None ↔ ∀ txt, txt ∈ texts → analyze txt = [].
Proof.
  unfold fit_transform.
  destruct (forallb _ _) eqn:Hall.
  - split; [intros _|done]. intros txt Hin.
    rewrite forallb_forall in Hall.
    specialize (Hall (analyze txt)). rewrite bool_decide_eq_true in Hall.
    apply Hall. apply list_elem_of_In. by apply list_elem_of_fmap_2.
  - split; [done|]. intros Hnone. exfalso.
    apply not_true_iff_false in Hall. apply Hall.
    apply forallb_forall. intros d Hd. apply bool_decide_eq_true.
    apply list_elem_of_In, list_elem_of_fmap in Hd as (txt & -> & Hin). by apply Hnone.
Qed.

Lemma fit_transform_nil (analyze : string → list string) :
  fit_transform analyze [] = None.
Proof. done. Qed.

Lemma run_Ok_inv analyze texts similarity_matrix threshold search_keyword G rows :
  run analyze texts similarity_matrix threshold search_keyword = Ok (G, rows) →
  display_graph (build_graph texts similarity_matrix threshold) search_keyword = Ok G ∧
  rows = top_df texts similarity_matrix threshold.
Proof.
  unfold run. destruct (fit_transform analyze texts); [|done].
  destruct (display_graph _ _); simpl; [|done]. by intros [= -> ->].
Qed.

(** C6. The ranked table comes from all qualifying pairs of the corpus,
    whatever the keyword: on every keyword that does not end the run with
    [NoMatchError], the keyword filter's own stop, the run shows exactly the
    table of the run without keyword (and none when that run shows none); a
    table that is shown is the one computed from the texts, the similarity
    matrix and the threshold alone, also when the keyword narrows the drawn
    graph. *)
Theorem C6_ranked_table_independent_of_keyword
    (analyze : string → list string) (texts : list string)
    (similarity_matrix : nat → nat → Q) (threshold : Q) (search_keyword : string) :
  run analyze texts similarity_matrix threshold search_keyword ≠ Stop NoMatchError →
  ranked_table (run analyze texts similarity_matrix threshold search_keyword) =
    ranked_table (run analyze texts similarity_matrix threshold EmptyString) ∧
  (∀ rows,
     ranked_table (run analyze texts similarity_matrix threshold search_keyword) = Some rows →
     rows = top_df texts similarity_matrix threshold).
Proof.
  intros Hstop. split.
  - revert Hstop. unfold run.
    destruct (fit_transform analyze texts); [|done].
    unfold display_graph.
    destruct (check_graph (build_graph texts similarity_matrix threshold)) as [G|e];
      [|done].
    simpl. unfold keyword_filter at 1 2.
    destruct (Str.truthy search_keyword); [|done].
    by destruct (matched_nodes G search_keyword).
  - intros rows. unfold ranked_table.
    destruct (run analyze texts similarity_matrix threshold search_keyword)
      as [[G r]|e] eqn:Hrun; [|done].
    apply run_Ok_inv in Hrun as [_ ->]. simpl. by intros [= <-].
Qed.

Lemma C6_ranked_table_independent_of_keyword_witness :
  ranked_table (run ascii_text.analyze sample_texts sample_similarity (3 # 10) "robotics") =
    ranked_table (run ascii_text.analyze sample_texts sample_similarity (3 # 10) "") ∧
  (∀ rows,
     ranked_table (run ascii_text.analyze sample_texts sample_similarity (3 # 10) "robotics")
     = Some rows →
     rows = top_df sample_texts sample_similarity (3 # 10)).
Proof.
  apply (C6_ranked_table_independent_of_keyword
           ascii_text.analyze sample_texts sample_similarity (3 # 10) "robotics").
  vm_compute. discriminate.
Defined.

(** ** The ranked table *)




(** The sort looks at the unrounded scores: two scores that are shown alike
    are still ranked by their full value. *)
Example top_df_ranks_by_unrounded_score :
  let sim (i j : nat) : Q :=
    match i, j with
    | 0, 1 => 5001 # 10000
    | 0, 2 => 5004 # 10000
    | _, _ => 0%Q
    end in
  top_df ["a1"; "b2"; "c3"]%string sim (3 # 10) =
  [("a1", "c3", b64.of_Q (1 # 2)); ("a1", "b2", b64.of_Q (1 # 2))]%string.
Proof. vm_compute. reflexivity. Qed.

(** ** Stops after graph construction *)

Lemma keyword_filter_Stop (G : Graph) (kw : string) (e : PipelineError) :
  keyword_filter G kw = Stop e → e = NoMatchError.
Proof.
  unfold keyword_filter. destruct (Str.truthy kw); [|done].
  destruct (matched_nodes G kw); [|done]. by intros [= <-].
Qed.

Lemma display_graph_EmptyCorpusError (G : Graph) (kw : string) :
  display_graph G kw = Stop EmptyCorpusError ↔ nx.number_of_nodes G = 0.
Proof.
  unfold display_graph, check_graph.
  destruct (nx.number_of_nodes G =? 0) eqn:Hn.
  - apply Nat.eqb_eq in Hn. by split.
  - apply Nat.eqb_neq in Hn. split; [|done].
    destruct (nx.number_of_edges G =? 0); simpl; [done|].
    intros He. by apply keyword_filter_Stop in He.
Qed.

Lemma display_graph_NoEdgesError (G : Graph) (kw : string) :
  display_graph G kw = Stop NoEdgesError ↔
  0 < nx.number_of_nodes G ∧ nx.number_of_edges G = 0.
Proof.
  unfold display_graph, check_graph.
  destruct (nx.number_of_nodes G =? 0) eqn:Hn.
  - apply Nat.eqb_eq in Hn. simpl. split; [done|lia].
  - apply Nat.eqb_neq in Hn.
    destruct (nx.number_of_edges G =? 0) eqn:He; simpl.
    + apply Nat.eqb_eq in He. split; [lia|done].
    + apply Nat.eqb_neq in He. split; [|lia].
      intros Hk. by apply keyword_filter_Stop in Hk.
Qed.

(** C8. After construction, a graph without nodes stops the run with
    [EmptyCorpusError] and a graph with nodes but without edges stops it with
    [NoEdgesError]; these are two different stops, each reached under its own
    condition only, and after either of them no graph is produced, whatever
    the keyword. *)
Theorem C8_stops_after_construction (G : Graph) (search_keyword : string) :
  (display_graph G search_keyword = Stop EmptyCorpusError ↔ nx.number_of_nodes G = 0) ∧
  (display_graph G search_keyword = Stop NoEdgesError ↔
     0 < nx.number_of_nodes G ∧ nx.number_of_edges G = 0) ∧
  EmptyCorpusError ≠ NoEdgesError ∧
  (nx.number_of_nodes G = 0 ∨ nx.number_of_edges G = 0 →
     produced (display_graph G search_keyword) = None) ∧
  (∀ analyze texts similarity_matrix threshold,
     G = build_graph texts similarity_matrix threshold →
     nx.number_of_nodes G = 0 ∨ nx.number_of_edges G = 0 →
     produced (run analyze texts similarity_matrix threshold search_keyword) = None).
Proof.
  assert (Hstop : nx.number_of_nodes G = 0 ∨ nx.number_of_edges G = 0 →
                  produced (display_graph G search_keyword) = None).
  { unfold display_graph, check_graph. intros [H0|H0].
    - by rewrite H0.
    - rewrite H0. by destruct (nx.number_of_nodes G =? 0). }
  split; [apply display_graph_EmptyCorpusError|].
  split; [apply display_graph_NoEdgesError|].
  split; [done|]. split; [done|].
  intros analyze texts similarity_matrix threshold -> H0.
  unfold run. destruct (fit_transform analyze texts); [|done].
  specialize (Hstop H0).
  by destruct (display_graph _ _).
Qed.

(** In a run: texts that vectorize but have no pair at the threshold. *)
Lemma run_NoEdgesError analyze texts similarity_matrix threshold search_keyword :
  fit_transform analyze texts ≠ None →
  pairs texts similarity_matrix threshold = [] →
  run analyze texts similarity_matrix threshold search_keyword = Stop NoEdgesError.
Proof.
  intros Hfit Hpairs. unfold run.
  destruct (fit_transform analyze texts) as [docs|] eqn:Hf; [|done].
  destruct texts as [|txt texts]; [done|].
  assert (Hd : display_graph (build_graph (txt :: texts) similarity_matrix threshold)
                 search_keyword = Stop NoEdgesError).
  { apply display_graph_NoEdgesError.
    rewrite number_of_nodes_build_graph, number_of_edges_build_graph_0.
    split; [simpl; lia|done]. }
  by rewrite Hd.
Qed.

Example display_graph_empty : display_graph nx.empty "" = Stop EmptyCorpusError.
Proof. reflexivity. Qed.

Example display_graph_no_edges :
  display_graph (build_graph sample_texts sample_similarity (6 # 10)) "" = Stop NoEdgesError.
Proof. vm_compute. reflexivity. Qed.

(** ** The empty corpus *)

(** The claim C9 as it is written fails: on an empty corpus the run stops at
    the vectorizer (lines 34-38), not at the zero-node check of line 51. *)
Lemma C9_empty_corpus_counterexample :
  run ascii_text.analyze [] sample_similarity (3 # 10) "" = Stop VectorizationError ∧
  run ascii_text.analyze [] sample_similarity (3 # 10) "" ≠ Stop EmptyCorpusError.
Proof. split; [reflexivity|discriminate]. Qed.

(** C9, amended. On an empty corpus the run stops at the Vectorizer with
    [VectorizationError], whatever the analyzer, the matrix, the threshold
    and the keyword; graph construction is not reached, and no corpus at all
    makes a run stop with [EmptyCorpusError]. *)
Theorem C9_empty_corpus_stops_at_vectorizer
    (analyze : string → list string) (similarity_matrix : nat → nat → Q)
    (threshold : Q) (search_keyword : string) :
  fit_transform analyze [] = None ∧
  run analyze [] similarity_matrix threshold search_keyword = Stop VectorizationError ∧
  (∀ texts, run analyze texts similarity_matrix threshold search_keyword
            ≠ Stop EmptyCorpusError).
Proof.
  split; [done|]. split; [done|].
  intros texts. unfold run.
  destruct (fit_transform analyze texts) as [docs|] eqn:Hfit; [|done].
  destruct texts as [|txt texts]; [done|].
  destruct (display_graph _ _) as [G|e] eqn:Hd; [done|]. simpl.
  intros [= ->].
  apply display_graph_EmptyCorpusError in Hd.
  rewrite number_of_nodes_build_graph in Hd. done.
Qed.

(** ** A filtered graph without edges *)

(** C10. The zero-edge check looks at the unfiltered graph only: there are a
    corpus, a matrix, a threshold and a keyword such that the built graph has
    an edge, the only node that matches the keyword has no neighbour, and the
    run completes with a drawn graph of one node and no edge, so without
    [NoEdgesError]. *)
Theorem C10_filtered_graph_may_have_no_edge :
  ∃ (texts : list string) (similarity_matrix : nat → nat → Q) (threshold : Q)
    (search_keyword : string) (n : nat) (G' : Graph),
    let G := build_graph texts similarity_matrix threshold in
    0 < nx.number_of_edges G ∧
    matched_nodes G search_keyword = [n] ∧
    nx.neighbors G n = ∅ ∧
    display_graph G search_keyword = Ok G' ∧
    drawn_graph (run ascii_text.analyze texts similarity_matrix threshold search_keyword)
      = Some G' ∧
    nx.number_of_nodes G' = 1 ∧
    nx.number_of_edges G' = 0.
Proof.
  exists sample_texts, sample_similarity, (3 # 10)%Q, "robotics"%string, 2,
    (mkGraph {[2 := "unrelated robotics topic"%string]} {[2 := ∅]}).
  repeat split; vm_compute; reflexivity.
Qed.


(** ** The similarity engine *)

Section similarity_engine.
Implicit Types (x y acc : spec_float) (u v : list spec_float).

Lemma mul_comm x y : b64.mul x y = b64.mul y x.
Proof.
  unfold b64.mul.
  destruct x as [sx|sx| |sx mx ex], y as [sy|sy| |sy my ey]; simpl;
    rewrite ?(xorb_comm sx sy); try done.
  by rewrite (Pos.mul_comm mx my), (Z.add_comm ex ey).
Qed.















(** The TF-IDF rows of the two identical texts, [1/sqrt 3] three times. *)
Example tfidf_identical_texts_value :
  tfidf_identical_texts =
  [replicate 3 (S754_finite false 5200308914369309 (-53));
   replicate 3 (S754_finite false 5200308914369309 (-53))].
Proof. vm_compute. reflexivity. Qed.

End similarity_engine.

(** * Further properties of the script *)

(** ** Edge count of the built graph *)

Section edge_count.
Implicit Types (G : Graph) (m : gmap nat (gmap nat Q)).

Lemma degree_empty (n : nat) : nx.degree n ∅ = 0.
Proof.
  unfold nx.degree. rewrite map_size_empty, dom_empty_L.
  by rewrite decide_False by set_solver.
Qed.

Lemma degree_sum_insert_None m (k : nat) (x : gmap nat Q) :
  m !! k = None → degree_sum (<[k := x]> m) = nx.degree k x + degree_sum m.
Proof.
  intros Hk. unfold degree_sum.
  apply (map_fold_insert_L (λ n nbrs acc, nx.degree n nbrs + acc)); [|done].
  intros. lia.
Qed.

(** Overwriting an adjacency entry exchanges its degree in the sum. *)
Lemma degree_sum_insert m (k : nat) (x : gmap nat Q) :
  degree_sum (<[k := x]> m) + nx.degree k (default ∅ (m !! k)) =
  nx.degree k x + degree_sum m.
Proof.
  destruct (m !! k) as [old|] eqn:Hk; simpl.
  - rewrite (degree_sum_delete m k old Hk).
    rewrite <- (insert_delete_eq m k x).
    rewrite degree_sum_insert_None by apply lookup_delete_eq. lia.
  - rewrite degree_empty, degree_sum_insert_None by done. lia.
Qed.

Lemma degree_insert_new (u v : nat) (w : Q) (nbrs : gmap nat Q) :
  u ≠ v → nbrs !! v = None →
  nx.degree u (<[v := w]> nbrs) = S (nx.degree u nbrs).
Proof.
  intros Huv Hv. unfold nx.degree.
  rewrite map_size_insert_None by done. rewrite dom_insert_L.
  destruct (decide (u ∈ dom nbrs)) as [Hu|Hu].
  - rewrite decide_True; [lia|]. apply elem_of_union. by right.
  - rewrite decide_False; [lia|]. intros [Hin|Hin]%elem_of_union; [|done].
    by apply elem_of_singleton in Hin.
Qed.

(** A new edge between two different nodes adds two to the degree sum. *)
Lemma degree_sum_add_edge G (u v : nat) (w : Q) :
  u ≠ v → nx.edge_weight G u v = None → nx.edge_weight G v u = None →
  degree_sum (adj (nx.add_edge G u v w)) = degree_sum (adj G) + 2.
Proof.
  intros Huv Huv_none Hvu_none. unfold nx.add_edge. simpl.
  rewrite lookup_insert_ne by done.
  pose proof (degree_sum_insert (adj G) u (<[v := w]> (default ∅ (adj G !! u)))) as H1.
  pose proof (degree_sum_insert
                (<[u := <[v := w]> (default ∅ (adj G !! u))]> (adj G)) v
                (<[u := w]> (default ∅ (adj G !! v)))) as H2.
  rewrite lookup_insert_ne in H2 by done.
  rewrite degree_insert_new in H1, H2; [lia|done| |done|].
  - rewrite default_lookup. exact Hvu_none.
  - rewrite default_lookup. exact Huv_none.
Qed.

Lemma degree_sum_no_edge G :
  (∀ u v, nx.edge_weight G u v = None) → degree_sum (adj G) = 0.
Proof.
  intros Hnone. apply degree_sum_0. intros n nbrs Hn.
  apply map_eq. intros v. rewrite lookup_empty.
  specialize (Hnone n v). unfold nx.edge_weight in Hnone. by rewrite Hn in Hnone.
Qed.

Lemma degree_sum_foldl_add_pair (similarity_matrix : nat → nat → Q)
    (ps : list Pair) G :
  NoDup ps.*1 →
  (∀ p, p ∈ ps → p.1.1 < p.1.2 ∧ p.2 = similarity_matrix p.1.1 p.1.2) →
  (∀ u v, nx.edge_weight G u v = None) →
  degree_sum (adj (foldl add_pair G ps)) = 2 * length ps.
Proof.
  intros Hnd Hps HG. induction ps as [|[[i j] s] ps IH] using rev_ind.
  - simpl. by rewrite degree_sum_no_edge.
  - rewrite fmap_app in Hnd. apply NoDup_app in Hnd as (Hnd & Hfresh & _).
    assert (Hij : i < j).
    { destruct (Hps (i, j, s)) as [? _]; [apply elem_of_app; right; by left|done]. }
    assert (Hps' : ∀ p, p ∈ ps → p.1.1 < p.1.2 ∧ p.2 = similarity_matrix p.1.1 p.1.2).
    { intros p Hp. apply Hps, elem_of_app. by left. }
    assert (Hnew : ∀ a b, ends a b = (i, j) →
                   nx.edge_weight (foldl add_pair G ps) a b = None).
    { intros a b Hab. rewrite (edge_weight_foldl_add_pair similarity_matrix) by done.
      rewrite decide_False; [apply HG|]. intros [_ Hin]. rewrite Hab in Hin.
      apply (Hfresh (i, j)); [done|]. simpl. by left. }
    rewrite foldl_snoc, length_app. unfold add_pair at 1. cbn [fst snd length].
    rewrite degree_sum_add_edge.
    + rewrite IH by done. lia.
    + lia.
    + apply Hnew. unfold ends. f_equal; lia.
    + apply Hnew. unfold ends. f_equal; lia.
Qed.

Lemma NoDup_pairs_keys texts similarity_matrix threshold :
  NoDup (pairs texts similarity_matrix threshold).*1.
Proof.
  pose proof (pairs_enumeration_order texts similarity_matrix threshold) as Hs.
  induction Hs as [|x l Hl IH Hx]; simpl; constructor; [|done].
  intros Hin. apply list_elem_of_fmap in Hin as (y & Heq & Hy).
  rewrite Forall_forall in Hx. specialize (Hx y Hy).
  rewrite <- Heq in Hx. unfold lex_lt in Hx. lia.
Qed.

Lemma degree_sum_build_graph texts similarity_matrix threshold :
  degree_sum (adj (build_graph texts similarity_matrix threshold)) =
  2 * length (pairs texts similarity_matrix threshold).
Proof.
  rewrite build_graph_pairs.
  apply (degree_sum_foldl_add_pair similarity_matrix).
  - apply NoDup_pairs_keys.
  - intros [[i j] s] Hin. apply elem_of_pairs in Hin as (? & ? & ? & ?). done.
  - apply edge_weight_add_nodes.
Qed.

Lemma length_pairs_edges texts similarity_matrix threshold :
  nx.number_of_edges (build_graph texts similarity_matrix threshold) =
  length (pairs texts similarity_matrix threshold).
Proof.
  rewrite number_of_edges_degree_sum, degree_sum_build_graph.
  by rewrite Nat.mul_comm, Nat.div_mul.
Qed.

End edge_count.

(** ** Shape of the graphs of a run *)

Section shape.
Implicit Types (G : Graph) (S : gset nat).

Lemma dom_adj_add_node G (n : nat) (txt : string) :
  dom (adj G) = dom (node G) →
  dom (adj (nx.add_node G n txt)) = dom (node (nx.add_node G n txt)).
Proof.
  intros Hdom. unfold nx.add_node. simpl. rewrite dom_insert_L.
  destruct (node G !! n) as [old|] eqn:Hn.
  - rewrite Hdom. apply set_eq. intros x. rewrite elem_of_union, elem_of_singleton.
    split; [by right|]. intros [->|?]; [|done]. apply elem_of_dom. eauto.
  - by rewrite dom_insert_L, Hdom.
Qed.

Lemma dom_adj_add_nodes (texts : list string) :
  dom (adj (add_nodes texts)) = dom (node (add_nodes texts)).
Proof.
  induction texts as [|txt texts IH] using rev_ind; [done|].
  rewrite add_nodes_snoc. by apply dom_adj_add_node.
Qed.

Lemma dom_adj_add_edge G (u v : nat) (w : Q) :
  u ∈ dom (adj G) → v ∈ dom (adj G) →
  dom (adj (nx.add_edge G u v w)) = dom (adj G).
Proof.
  intros Hu Hv. unfold nx.add_edge. simpl. rewrite !dom_insert_L.
  apply set_eq. intros x. rewrite !elem_of_union, !elem_of_singleton.
  split; [|tauto]. intros [->|[->|?]]; done.
Qed.

Lemma dom_adj_foldl_add_pair (ps : list Pair) G :
  (∀ p, p ∈ ps → p.1.1 ∈ dom (adj G) ∧ p.1.2 ∈ dom (adj G)) →
  dom (adj (foldl add_pair G ps)) = dom (adj G).
Proof.
  induction ps as [|p ps IH] using rev_ind; intros Hps; [done|].
  assert (Hdom : dom (adj (foldl add_pair G ps)) = dom (adj G)).
  { apply IH. intros q Hq. apply Hps, elem_of_app. by left. }
  rewrite foldl_snoc. unfold add_pair at 1.
  destruct (Hps p) as [H1 H2]; [apply elem_of_app; right; by left|].
  rewrite dom_adj_add_edge; by rewrite ?Hdom.
Qed.

Lemma elem_of_dom_node_build_graph texts similarity_matrix threshold (n : nat) :
  n ∈ dom (node (build_graph texts similarity_matrix threshold)) ↔ n < length texts.
Proof.
  rewrite elem_of_dom, node_build_graph. apply lookup_lt_is_Some.
Qed.

Lemma well_formed_build_graph texts similarity_matrix threshold :
  well_formed (build_graph texts similarity_matrix threshold).
Proof.
  split; [|split; [|split]].
  - rewrite build_graph_pairs, node_foldl_add_pair, dom_adj_foldl_add_pair.
    + apply dom_adj_add_nodes.
    + intros [[i j] s] Hin. apply elem_of_pairs in Hin as (Hij & Hj & _).
      rewrite dom_adj_add_nodes. simpl.
      rewrite !elem_of_dom, !node_add_nodes, !lookup_lt_is_Some. lia.
  - intros u v Huv. apply elem_of_dom_node_build_graph.
    rewrite edge_weight_build_graph in Huv.
    case_decide as Hd; [tauto|by destruct Huv].
  - intros u v. apply edge_weight_build_graph_sym.
  - intros u. rewrite edge_weight_build_graph.
    by rewrite decide_False by (by intros [? _]).
Qed.

Lemma well_formed_subgraph G S : well_formed G → well_formed (nx.subgraph G S).
Proof.
  intros (Hdom & Hnbr & Hsym & Hloop). split; [|split; [|split]].
  - simpl. rewrite dom_fmap_L. apply set_eq. intros n.
    rewrite !elem_of_dom. unfold is_Some.
    setoid_rewrite map_lookup_filter_Some. simpl.
    assert (Hn : is_Some (adj G !! n) ↔ is_Some (node G !! n))
      by (by rewrite <- !elem_of_dom, Hdom).
    unfold is_Some in Hn. split.
    + intros (x & Hx & Hin). destruct (proj1 Hn) as [lbl Hl]; eauto.
    + intros (x & Hx & Hin). destruct (proj2 Hn) as [nbrs Hl]; eauto.
  - intros u v. rewrite edge_weight_subgraph. case_decide as Hd; [|by intros []].
    intros Huv. apply elem_of_dom. rewrite node_subgraph.
    rewrite decide_True by tauto. apply elem_of_dom. by eapply Hnbr.
  - intros u v. rewrite !edge_weight_subgraph, Hsym. apply decide_ext. tauto.
  - intros u. rewrite edge_weight_subgraph, Hloop. by case_decide.
Qed.

Lemma well_formed_keyword_filter G (kw : string) G' :
  well_formed G → keyword_filter G kw = Ok G' → well_formed G'.
Proof.
  intros Hwf. unfold keyword_filter. destruct (Str.truthy kw).
  - destruct (matched_nodes G kw) as [|m ms]; [done|].
    intros [= <-]. by apply well_formed_subgraph.
  - by intros [= <-].
Qed.

Lemma display_graph_Ok_inv G (kw : string) G' :
  display_graph G kw = Ok G' →
  0 < nx.number_of_nodes G ∧ 0 < nx.number_of_edges G ∧ keyword_filter G kw = Ok G'.
Proof.
  unfold display_graph, check_graph.
  destruct (nx.number_of_nodes G =? 0) eqn:Hn; [done|].
  destruct (nx.number_of_edges G =? 0) eqn:He; [done|]. simpl.
  apply Nat.eqb_neq in Hn, He. intros ->. split; [lia|]. split; [lia|done].
Qed.

(** X2. The built graph is a well-formed undirected graph without
    self-loops, and so is the graph drawn by any run that completes, with or
    without a keyword. *)
Theorem X2_graphs_well_formed
    (analyze : string → list string) (texts : list string)
    (similarity_matrix : nat → nat → Q) (threshold : Q) (search_keyword : string) :
  well_formed (build_graph texts similarity_matrix threshold) ∧
  ∀ G', drawn_graph (run analyze texts similarity_matrix threshold search_keyword) = Some G' →
        well_formed G'.
Proof.
  split; [apply well_formed_build_graph|].
  intros G'. unfold drawn_graph.
  destruct (run analyze texts similarity_matrix threshold search_keyword)
    as [[G rows]|e] eqn:Hrun; [|done].
  simpl. intros [= ->].
  apply run_Ok_inv in Hrun as [Hd _].
  apply display_graph_Ok_inv in Hd as (_ & _ & Hf).
  eapply well_formed_keyword_filter; [apply well_formed_build_graph|exact Hf].
Qed.

End shape.

(** ** How many edges *)

Section how_many.

Lemma edges_build_graph texts similarity_matrix threshold :
  nx.edges (build_graph texts similarity_matrix threshold) =
  list_to_set (pairs texts similarity_matrix threshold).*1.
Proof.
  apply set_eq. intros [i j].
  rewrite elem_of_edges, elem_of_list_to_set, list_elem_of_fmap.
  rewrite edge_weight_build_graph. split.
  - intros [Hle Hw]. case_decide as Hd; [|by destruct Hw].
    destruct Hd as (Hne & Hi & Hj & Hm).
    replace (i `min` j) with i in Hm by lia. replace (i `max` j) with j in Hm by lia.
    exists (i, j, similarity_matrix i j). split; [done|].
    apply elem_of_pairs. repeat split; [lia|done|done].
  - intros ([[i' j'] s] & [= <- <-] & Hin).
    apply elem_of_pairs in Hin as (Hij & Hj & Hm & _).
    split; [lia|]. rewrite decide_True; [eauto|].
    replace (i `min` j) with i by lia. replace (i `max` j) with j by lia.
    repeat split; [lia|lia|done|done].
Qed.

(** X1. The three counts of edges agree on the built graph:
    [G.number_of_edges()] (half the degree sum), the number of undirected
    edges in the edge set, and the number of pairs [i < j] that meet the
    threshold. *)
Theorem X1_number_of_edges_build_graph
    (texts : list string) (similarity_matrix : nat → nat → Q) (threshold : Q) :
  let G := build_graph texts similarity_matrix threshold in
  nx.number_of_edges G = length (pairs texts similarity_matrix threshold) ∧
  size (nx.edges G) = length (pairs texts similarity_matrix threshold).
Proof.
  intros G. subst G. split; [apply length_pairs_edges|].
  rewrite edges_build_graph, size_list_to_set by apply NoDup_pairs_keys.
  apply length_fmap.
Qed.

Lemma length_bind_le {A B} (f : A → list B) (bound : A → nat) (l : list A) :
  (∀ a, a ∈ l → length (f a) ≤ bound a) →
  length (l ≫= f) ≤ sum_list (bound <$> l).
Proof.
  induction l as [|a l IH]; intros Hb; [done|].
  rewrite bind_cons, length_app, fmap_cons. cbn [sum_list_with]. unfold id at 1.
  pose proof (Hb a ltac:(left)).
  assert (length (l ≫= f) ≤ sum_list (bound <$> l)); [|lia].
  apply IH. intros. apply Hb. by right.
Qed.

Lemma length_bind_eq {A B} (f : A → list B) (bound : A → nat) (l : list A) :
  (∀ a, a ∈ l → length (f a) = bound a) →
  length (l ≫= f) = sum_list (bound <$> l).
Proof.
  induction l as [|a l IH]; intros Hb; [done|].
  rewrite bind_cons, length_app, fmap_cons. cbn [sum_list_with]. unfold id at 1.
  rewrite (Hb a) by left. f_equal.
  apply IH. intros. apply Hb. by right.
Qed.

(** [(N - 1) + (N - 2) + ... + 0], twice. *)
Lemma sum_row_lengths (N n a : nat) :
  a + n = N → 2 * sum_list ((λ i, N - (i + 1)) <$> seq a n) = n * (n - 1).
Proof.
  intros Han.
  assert (H : 2 * sum_list ((λ i, N - (i + 1)) <$> seq a n) + n = n * n).
  { revert a Han. induction n as [|n IH]; intros a Han; [done|].
    cbn [seq fmap list_fmap sum_list_with]. unfold id at 1.
    specialize (IH (S a) ltac:(lia)).
    replace (N - (a + 1)) with n by lia. lia. }
  rewrite Nat.mul_sub_distr_l. lia.
Qed.

Lemma length_bind_if_le {A B} (c : A → bool) (g : A → B) (l : list A) :
  length (l ≫= λ a, if c a then [g a] else []) ≤ length l.
Proof.
  induction l as [|a l IH]; [done|].
  rewrite bind_cons, length_app. destruct (c a); simpl; lia.
Qed.

Lemma length_bind_if_all {A B} (c : A → bool) (g : A → B) (l : list A) :
  (∀ a, a ∈ l → c a = true) →
  length (l ≫= λ a, if c a then [g a] else []) = length l.
Proof.
  induction l as [|a l IH]; intros Hall; [done|].
  rewrite bind_cons, length_app, (Hall a) by left. simpl. f_equal.
  apply IH. intros. apply Hall. by right.
Qed.

Lemma length_range (a b : nat) : length (range a b) = b - a.
Proof. apply length_seq. Qed.

Lemma length_pairs_le texts similarity_matrix threshold :
  2 * length (pairs texts similarity_matrix threshold) ≤ length texts * (length texts - 1).
Proof.
  unfold pairs.
  rewrite <- (sum_row_lengths (length texts) (length texts) 0) by done.
  replace (seq 0 (length texts)) with (range 0 (length texts))
    by (unfold range; by rewrite Nat.sub_0_r).
  apply Nat.mul_le_mono_l, length_bind_le. intros i _.
  etransitivity; [apply length_bind_if_le|]. by rewrite length_range.
Qed.

(** X3. A corpus of [N] texts gives at most [N (N - 1) / 2] edges, and
    exactly that many, the complete graph, when every pair meets the
    threshold. *)
Theorem X3_number_of_edges_bound
    (texts : list string) (similarity_matrix : nat → nat → Q) (threshold : Q) :
  let G := build_graph texts similarity_matrix threshold in
  let N := length texts in
  2 * nx.number_of_edges G ≤ N * (N - 1) ∧
  ((∀ i j, i < j → j < N → (threshold <= similarity_matrix i j)%Q) →
   2 * nx.number_of_edges G = N * (N - 1)).
Proof.
  intros G N. subst G N. rewrite length_pairs_edges.
  split; [apply length_pairs_le|].
  intros Hall. unfold pairs.
  rewrite <- (sum_row_lengths (length texts) (length texts) 0) by done.
  replace (seq 0 (length texts)) with (range 0 (length texts))
    by (unfold range; by rewrite Nat.sub_0_r).
  f_equal. apply length_bind_eq. intros i Hi.
  rewrite length_bind_if_all; [apply length_range|].
  intros j Hj. apply elem_of_range in Hj. apply meets_iff, Hall; lia.
Qed.

End how_many.

(** ** Outcome of a run, read off the inputs *)

Section outcome.
Context (analyze : string → list string).
Implicit Types (texts : list string) (similarity_matrix : nat → nat → Q)
  (threshold : Q) (search_keyword : string).

Lemma fit_transform_Some_nonempty texts docs :
  fit_transform analyze texts = Some docs → texts ≠ [].
Proof. by intros Hfit ->. Qed.

(** The run as a cascade of tests on the inputs. *)
Lemma run_cascade texts similarity_matrix threshold search_keyword :
  run analyze texts similarity_matrix threshold search_keyword =
  match fit_transform analyze texts with
  | None => Stop VectorizationError
  | Some _ =>
      match pairs texts similarity_matrix threshold with
      | [] => Stop NoEdgesError
      | _ :: _ =>
          bind_result
            (keyword_filter (build_graph texts similarity_matrix threshold) search_keyword)
            (λ G, Ok (G, top_df texts similarity_matrix threshold))
      end
  end.
Proof.
  unfold run. destruct (fit_transform analyze texts) as [docs|] eqn:Hfit; [|done].
  apply fit_transform_Some_nonempty in Hfit.
  unfold display_graph, check_graph.
  rewrite number_of_nodes_build_graph, length_pairs_edges.
  destruct texts as [|txt texts]; [done|]. simpl length at 1. simpl Nat.eqb at 1.
  by destruct (pairs (txt :: texts) similarity_matrix threshold).
Qed.

Lemma matches_build_graph texts similarity_matrix threshold search_keyword (n : nat) :
  matches (build_graph texts similarity_matrix threshold) search_keyword n ↔
  ∃ txt, texts !! n = Some txt ∧ Str.contains search_keyword txt = true.
Proof. unfold matches. by setoid_rewrite node_build_graph. Qed.

Lemma no_match_build_graph texts similarity_matrix threshold search_keyword :
  matched_nodes (build_graph texts similarity_matrix threshold) search_keyword = [] ↔
  ∀ txt, txt ∈ texts → Str.contains search_keyword txt = false.
Proof.
  rewrite matched_nodes_nil. setoid_rewrite matches_build_graph. split.
  - intros Hno txt Hin. apply list_elem_of_lookup in Hin as [n Hn].
    destruct (Str.contains search_keyword txt) eqn:Hc; [|done].
    exfalso. apply (Hno n). eauto.
  - intros Hno n (txt & Hn & Hc).
    rewrite (Hno txt) in Hc; [done|]. by eapply list_elem_of_lookup_2.
Qed.

Lemma fit_transform_not_None texts :
  fit_transform analyze texts ≠ None ↔ ∃ txt, txt ∈ texts ∧ analyze txt ≠ [].
Proof.
  rewrite fit_transform_None. split.
  - intros Hn. induction texts as [|a texts IH].
    + exfalso. apply Hn. intros txt Hin. by apply elem_of_nil in Hin.
    + destruct (decide (analyze a = [])) as [Ha|Ha].
      * destruct IH as (txt & Hin & Hne).
        { intros Hall. apply Hn. intros txt Hin.
          apply elem_of_cons in Hin as [-> | Hin]; auto. }
        exists txt. split; [by right|done].
      * exists a. split; [left|done].
  - intros (txt & Hin & Hne) Hall. by apply Hne, Hall.
Qed.

Lemma pairs_nil texts similarity_matrix threshold :
  pairs texts similarity_matrix threshold = [] ↔
  ∀ i j, i < j → j < length texts → (similarity_matrix i j < threshold)%Q.
Proof.
  split.
  - intros Hnil i j Hij Hj. apply meets_false_iff.
    destruct (meets threshold (similarity_matrix i j)) eqn:Hm; [|done].
    assert (Hin : (i, j, similarity_matrix i j) ∈ pairs texts similarity_matrix threshold)
      by (by apply elem_of_pairs).
    rewrite Hnil in Hin. by apply elem_of_nil in Hin.
  - intros Hall. apply elem_of_nil_inv. intros [[i j] s] Hin.
    apply elem_of_pairs in Hin as (Hij & Hj & Hm & _).
    specialize (Hall i j Hij Hj). apply meets_false_iff in Hall. congruence.
Qed.

Lemma pairs_not_nil texts similarity_matrix threshold :
  pairs texts similarity_matrix threshold ≠ [] ↔
  ∃ i j, i < j ∧ j < length texts ∧ (threshold <= similarity_matrix i j)%Q.
Proof.
  split.
  - destruct (pairs texts similarity_matrix threshold) as [|[[i j] s] ps] eqn:Hps; [done|].
    intros _. exists i, j.
    assert (Hin : (i, j, s) ∈ pairs texts similarity_matrix threshold)
      by (rewrite Hps; left).
    apply elem_of_pairs in Hin as (? & ? & ?%meets_iff & _). done.
  - intros (i & j & Hij & Hj & Hm) Hnil.
    assert (Hin : (i, j, similarity_matrix i j) ∈ pairs texts similarity_matrix threshold).
    { apply elem_of_pairs. by rewrite meets_iff. }
    rewrite Hnil in Hin. by apply elem_of_nil in Hin.
Qed.

(** X5. A run stops with [NoEdgesError] exactly when some text yields a term
    and no pair of texts meets the threshold. *)
Theorem X5_run_NoEdgesError texts similarity_matrix threshold search_keyword :
  run analyze texts similarity_matrix threshold search_keyword = Stop NoEdgesError ↔
  (∃ txt, txt ∈ texts ∧ analyze txt ≠ []) ∧
  ∀ i j, i < j → j < length texts → (similarity_matrix i j < threshold)%Q.
Proof.
  rewrite <- fit_transform_not_None, <- pairs_nil, run_cascade.
  destruct (fit_transform analyze texts) as [docs|]; [|split; [done|by intros [? _]]].
  destruct (pairs texts similarity_matrix threshold) as [|p ps]; [done|].
  split; [|by intros [_ ?]].
  destruct (keyword_filter _ _) as [G|e] eqn:Hk; simpl; [done|].
  apply keyword_filter_Stop in Hk as ->. done.
Qed.

(** X6. A run stops with [NoMatchError] exactly when some text yields a
    term, some pair meets the threshold, the keyword is not empty and no text
    contains it. *)
Theorem X6_run_NoMatchError texts similarity_matrix threshold search_keyword :
  run analyze texts similarity_matrix threshold search_keyword = Stop NoMatchError ↔
  (∃ txt, txt ∈ texts ∧ analyze txt ≠ []) ∧
  (∃ i j, i < j ∧ j < length texts ∧ (threshold <= similarity_matrix i j)%Q) ∧
  search_keyword ≠ EmptyString ∧
  ∀ txt, txt ∈ texts → Str.contains search_keyword txt = false.
Proof.
  rewrite <- fit_transform_not_None, <- truthy_iff, run_cascade.
  rewrite <- (no_match_build_graph texts similarity_matrix threshold).
  rewrite <- (pairs_not_nil texts similarity_matrix threshold).
  destruct (fit_transform analyze texts) as [docs|]; [|split; [done|by intros [? _]]].
  destruct (pairs texts similarity_matrix threshold) as [|p ps];
    [split; [done|by intros (_ & ? & _)]|].
  unfold keyword_filter.
  destruct (Str.truthy search_keyword); [|split; [done|by intros (_ & _ & ? & _)]].
  destruct (matched_nodes _ _) as [|m ms]; simpl; [done|].
  split; [done|by intros (_ & _ & _ & ?)].
Qed.

(** X7. A run completes exactly when some text yields a term, some pair
    meets the threshold, and the keyword is empty or contained in some text;
    it then draws the built graph (empty keyword) or a graph with at least
    the matching nodes, and in both cases at least one node. *)
Theorem X7_run_completes texts similarity_matrix threshold search_keyword :
  (is_Some (produced (run analyze texts similarity_matrix threshold search_keyword)) ↔
   (∃ txt, txt ∈ texts ∧ analyze txt ≠ []) ∧
   (∃ i j, i < j ∧ j < length texts ∧ (threshold <= similarity_matrix i j)%Q) ∧
   (search_keyword = EmptyString ∨
    ∃ txt, txt ∈ texts ∧ Str.contains search_keyword txt = true)) ∧
  (∀ G rows, run analyze texts similarity_matrix threshold search_keyword = Ok (G, rows) →
     0 < nx.number_of_nodes G ∧
     (search_keyword = EmptyString → G = build_graph texts similarity_matrix threshold) ∧
     (∀ n txt, texts !! n = Some txt → Str.contains search_keyword txt = true →
               node G !! n = Some txt)).
Proof.
  split.
  - rewrite <- fit_transform_not_None, run_cascade.
    rewrite <- (pairs_not_nil texts similarity_matrix threshold).
    assert (Hkw : (search_keyword = EmptyString ∨
                   ∃ txt, txt ∈ texts ∧ Str.contains search_keyword txt = true) ↔
                  Str.truthy search_keyword = false ∨
                  matched_nodes (build_graph texts similarity_matrix threshold) search_keyword ≠ []).
    { split.
      - intros [-> | (txt & Hin & Hc)]; [by left|right].
        intros Hno. rewrite no_match_build_graph in Hno.
        rewrite (Hno txt Hin) in Hc. done.
      - intros [Ht|Hm].
        + left. by destruct search_keyword.
        + right.
          destruct (matched_nodes _ _) as [|m ms] eqn:E; [done|].
          assert (Hin : m ∈ matched_nodes (build_graph texts similarity_matrix threshold)
                          search_keyword) by (rewrite E; left).
          apply elem_of_matched_nodes, matches_build_graph in Hin as (txt & Hn & Hc).
          exists txt. split; [by eapply list_elem_of_lookup_2|done]. }
    rewrite Hkw. clear Hkw.
    destruct (fit_transform analyze texts) as [docs|];
      [|split; [by intros []|by intros [? _]]].
    destruct (pairs texts similarity_matrix threshold) as [|p ps];
      [split; [by intros []|by intros (_ & ? & _)]|].
    unfold keyword_filter.
    destruct (Str.truthy search_keyword); simpl; [|split; eauto].
    destruct (matched_nodes _ _) as [|m ms]; simpl.
    + split; [by intros []|]. intros (_ & _ & [?|?]); done.
    + split; eauto.
  - intros G rows Hrun. apply run_Ok_inv in Hrun as [Hd _].
    apply display_graph_Ok_inv in Hd as (Hn & _ & Hf).
    rewrite number_of_nodes_build_graph in Hn.
    unfold keyword_filter in Hf.
    destruct (Str.truthy search_keyword) eqn:Hkw.
    + destruct (matched_nodes _ _) as [|m ms] eqn:Hm; [done|].
      assert (Hin : m ∈ matched_nodes (build_graph texts similarity_matrix threshold)
                      search_keyword) by (rewrite Hm; left).
      apply elem_of_matched_nodes, matches_build_graph in Hin as (txt0 & Hn0 & Hc0).
      injection Hf as <-. rewrite <- Hm. clear Hm.
      assert (Hkeep : ∀ n txt, texts !! n = Some txt →
                Str.contains search_keyword txt = true →
                node (nx.subgraph (build_graph texts similarity_matrix threshold)
                        (sub_nodes (build_graph texts similarity_matrix threshold)
                           (matched_nodes (build_graph texts similarity_matrix threshold)
                              search_keyword))) !! n = Some txt).
      { intros n txt Hn' Hc. rewrite node_subgraph, decide_True.
        - by rewrite node_build_graph.
        - apply elem_of_sub_nodes. exists n. split; [|by left].
          apply matches_build_graph. eauto. }
      split; [|split; [by intros ->|exact Hkeep]].
      assert (size (node (nx.subgraph (build_graph texts similarity_matrix threshold)
                        (sub_nodes (build_graph texts similarity_matrix threshold)
                           (matched_nodes (build_graph texts similarity_matrix threshold)
                              search_keyword)))) ≠ 0); [|unfold nx.number_of_nodes; lia].
      apply (map_size_ne_0_lookup_2 _ m). rewrite (Hkeep m txt0); eauto.
    + injection Hf as <-. rewrite number_of_nodes_build_graph.
      split; [done|]. split; [done|].
      intros n txt Hn' _. by rewrite node_build_graph.
Qed.

End outcome.

(** ** What a completed run draws *)

Section drawn.
Implicit Types (G : Graph) (kw : string).

(** The filter only removes: what is left was there, unchanged. *)
Lemma keyword_filter_sub G kw G' :
  keyword_filter G kw = Ok G' →
  (∀ n lbl, node G' !! n = Some lbl → node G !! n = Some lbl) ∧
  (∀ a b w, nx.edge_weight G' a b = Some w → nx.edge_weight G a b = Some w).
Proof.
  unfold keyword_filter. destruct (Str.truthy kw).
  - destruct (matched_nodes G kw) as [|m ms]; [done|]. intros [= <-]. split.
    + intros n lbl. rewrite node_subgraph. by case_decide.
    + intros a b w. rewrite edge_weight_subgraph. by case_decide.
  - by intros [= <-].
Qed.

(** X8. A corpus of at most one text never gets a graph or a table: the run
    stops at the vectorizer or, having one node and no pair, at the zero-edge
    check, whatever the threshold. *)
Theorem X8_single_text_never_draws
    (analyze : string → list string) (texts : list string)
    (similarity_matrix : nat → nat → Q) (threshold : Q) (search_keyword : string) :
  length texts ≤ 1 →
  run analyze texts similarity_matrix threshold search_keyword = Stop VectorizationError ∨
  run analyze texts similarity_matrix threshold search_keyword = Stop NoEdgesError.
Proof.
  intros Hlen. rewrite run_cascade.
  destruct (fit_transform analyze texts); [right|by left].
  pose proof (length_pairs_le texts similarity_matrix threshold) as Hle.
  destruct (pairs texts similarity_matrix threshold); [done|].
  simpl in Hle. destruct texts as [|t [|t' ts]]; simpl in *; lia.
Qed.

Lemma X8_single_text_never_draws_witness :
  run ascii_text.analyze ["solar cell battery"]%string (λ _ _, 1%Q) 0 ""
  = Stop VectorizationError ∨
  run ascii_text.analyze ["solar cell battery"]%string (λ _ _, 1%Q) 0 ""
  = Stop NoEdgesError.
Proof.
  apply (X8_single_text_never_draws
           ascii_text.analyze ["solar cell battery"]%string (λ _ _, 1%Q) 0 "").
  simpl. lia.
Defined.

(** X9. In the graph drawn by a completed run every node carries the text of
    its index, and every edge joins two different drawn nodes, has the
    similarity of its two indices as weight, and meets the threshold. *)
Theorem X9_drawn_graph_sound
    (analyze : string → list string) (texts : list string)
    (similarity_matrix : nat → nat → Q) (threshold : Q) (search_keyword : string)
    (G : Graph) (rows : list Row) :
  run analyze texts similarity_matrix threshold search_keyword = Ok (G, rows) →
  (∀ n lbl, node G !! n = Some lbl → texts !! n = Some lbl) ∧
  (∀ a b w, nx.edge_weight G a b = Some w →
     a ≠ b ∧ is_Some (node G !! a) ∧ is_Some (node G !! b) ∧
     w = similarity_matrix (a `min` b) (a `max` b) ∧ (threshold <= w)%Q).
Proof.
  intros Hrun. apply run_Ok_inv in Hrun as [Hd _].
  apply display_graph_Ok_inv in Hd as (_ & _ & Hf).
  pose proof (well_formed_keyword_filter _ _ _
                (well_formed_build_graph texts similarity_matrix threshold) Hf)
    as (_ & Hnbr & Hsym & _).
  apply keyword_filter_sub in Hf as [Hnode Hedge].
  split.
  - intros n lbl Hn. rewrite <- (node_build_graph similarity_matrix threshold). by apply Hnode.
  - intros a b w Hw.
    assert (Hb : is_Some (node G !! b)) by (apply elem_of_dom, (Hnbr a b); eauto).
    assert (Ha : is_Some (node G !! a)).
    { apply elem_of_dom, (Hnbr b a). rewrite <- Hsym. eauto. }
    apply Hedge in Hw. rewrite edge_weight_build_graph in Hw.
    case_decide as Hd; [|done]. injection Hw as <-.
    destruct Hd as (? & ? & ? & Hm%meets_iff). done.
Qed.

Lemma X9_drawn_graph_sound_witness :
  let G := mkGraph {[0 := "solar cell battery"%string; 1 := "battery storage system"%string]}
                   {[0 := {[1 := 1 # 2]}; 1 := {[0 := 1 # 2]}]} in
  (∀ n lbl, node G !! n = Some lbl → sample_texts !! n = Some lbl) ∧
  (∀ a b w, nx.edge_weight G a b = Some w →
     a ≠ b ∧ is_Some (node G !! a) ∧ is_Some (node G !! b) ∧
     w = sample_similarity (a `min` b) (a `max` b) ∧ (3 # 10 <= w)%Q).
Proof.
  apply (X9_drawn_graph_sound ascii_text.analyze sample_texts sample_similarity
           (3 # 10) "solar" _ (top_df sample_texts sample_similarity (3 # 10))).
  vm_compute. reflexivity.
Defined.

End drawn.

(** ** More on the keyword filter *)

Section filter_more.
Implicit Types (G : Graph) (kw : string) (S : gset nat).

Lemma append_assoc (a b c : string) : (a +:+ b) +:+ c = a +:+ (b +:+ c).
Proof.
  induction a as [|x a IH]; [done|].
  change (String x ((a +:+ b) +:+ c) = String x (a +:+ (b +:+ c))). by f_equal.
Qed.

(** [a in b] and [b in c] give [a in c]. *)
Lemma contains_trans (a b c : string) :
  Str.contains a b = true → Str.contains b c = true → Str.contains a c = true.
Proof.
  rewrite !contains_spec. intros (p1 & q1 & ->) (p2 & q2 & ->).
  exists (p2 +:+ p1), (q1 +:+ q2). by rewrite !append_assoc.
Qed.

Lemma contains_empty_label (kw : string) :
  Str.contains kw EmptyString = true → kw = EmptyString.
Proof. by destruct kw. Qed.

Lemma neighbors_subgraph_matched G kw (m : nat) :
  matches G kw m →
  nx.neighbors (nx.subgraph G (sub_nodes G (matched_nodes G kw))) m = nx.neighbors G m.
Proof.
  intros Hm. apply set_eq. intros x.
  rewrite !elem_of_neighbors, edge_weight_subgraph.
  case_decide as Hd; [done|]. split; [by intros []|]. intros Hx. exfalso. apply Hd.
  rewrite !elem_of_sub_nodes. split; exists m; (split; [done|]); [by left|by right].
Qed.

Lemma neighbors_subgraph_subseteq G S (n : nat) :
  nx.neighbors (nx.subgraph G S) n ⊆ nx.neighbors G n.
Proof.
  intros x. rewrite !elem_of_neighbors, edge_weight_subgraph.
  case_decide; [done|by intros []].
Qed.

(** X10. The filter keeps every edge of a matching node, so a matching node
    has the same neighbours and the same degree (its colour in the drawing)
    as in the full graph; any other node that is kept has a subset of its
    neighbours and at most its degree. *)
Theorem X10_filter_keeps_degree_of_matches G kw G' :
  keyword_filter G kw = Ok G' →
  (∀ m, matches G kw m →
     nx.neighbors G' m = nx.neighbors G m ∧ node_degree G' m = node_degree G m) ∧
  (∀ n, nx.neighbors G' n ⊆ nx.neighbors G n ∧ node_degree G' n ≤ node_degree G n).
Proof.
  unfold keyword_filter, node_degree. destruct (Str.truthy kw).
  - destruct (matched_nodes G kw) as [|m0 ms] eqn:Hm; [done|].
    intros [= <-]. rewrite <- Hm. split.
    + intros m Hmatch. by rewrite neighbors_subgraph_matched.
    + intros n. pose proof (neighbors_subgraph_subseteq G
                              (sub_nodes G (matched_nodes G kw)) n) as Hsub.
      split; [done|]. by apply subseteq_size.
  - intros [= <-]. split; [done|]. intros n. split; [done|lia].
Qed.

Lemma X10_filter_keeps_degree_of_matches_witness :
  let G := build_graph sample_texts sample_similarity (3 # 10) in
  let G' := mkGraph {[0 := "solar cell battery"%string; 1 := "battery storage system"%string]}
                    {[0 := {[1 := 1 # 2]}; 1 := {[0 := 1 # 2]}]} in
  (∀ m, matches G "solar"%string m →
     nx.neighbors G' m = nx.neighbors G m ∧ node_degree G' m = node_degree G m) ∧
  (∀ n, nx.neighbors G' n ⊆ nx.neighbors G n ∧ node_degree G' n ≤ node_degree G n).
Proof.
  apply (X10_filter_keeps_degree_of_matches
           (build_graph sample_texts sample_similarity (3 # 10)) "solar"%string).
  vm_compute. reflexivity.
Defined.

Lemma matches_narrow G kw1 kw2 (n : nat) :
  Str.contains kw1 kw2 = true → matches G kw2 n → matches G kw1 n.
Proof.
  intros Hc (lbl & Hn & Hl). exists lbl. split; [done|]. by eapply contains_trans.
Qed.

Lemma in_neighbourhood_narrow G kw1 kw2 (n : nat) :
  Str.contains kw1 kw2 = true → in_neighbourhood G kw2 n → in_neighbourhood G kw1 n.
Proof.
  intros Hc (m & Hm & Hn). exists m. split; [by eapply matches_narrow|done].
Qed.

(** X11. Extending the keyword narrows the drawing: when [kw1] is a
    substring of [kw2] and the filter succeeds on [kw2], it succeeds on [kw1]
    as well, and every node and edge kept for [kw2] is kept for [kw1], with
    the same label and weight. *)
Theorem X11_longer_keyword_narrows G kw1 kw2 G2 :
  Str.contains kw1 kw2 = true →
  keyword_filter G kw2 = Ok G2 →
  ∃ G1, keyword_filter G kw1 = Ok G1 ∧
    (∀ n lbl, node G2 !! n = Some lbl → node G1 !! n = Some lbl) ∧
    (∀ a b w, nx.edge_weight G2 a b = Some w → nx.edge_weight G1 a b = Some w).
Proof.
  intros Hc Hf2.
  destruct (Str.truthy kw1) eqn:Hk1.
  - assert (Hk2 : Str.truthy kw2 = true).
    { destruct kw2; [|done]. apply contains_empty_label in Hc. by subst kw1. }
    unfold keyword_filter in Hf2. rewrite Hk2 in Hf2.
    destruct (matched_nodes G kw2) as [|m ms] eqn:Hm2; [done|].
    injection Hf2 as <-. rewrite <- Hm2.
    assert (Hin : m ∈ matched_nodes G kw2) by (rewrite Hm2; left).
    apply elem_of_matched_nodes in Hin.
    eexists. split.
    + apply keyword_filter_matched; [done|].
      apply matched_nodes_not_nil. exists m. by eapply matches_narrow.
    + split.
      * intros n lbl. rewrite !node_subgraph.
        case_decide as Hd; [|done]. intros Hn.
        rewrite decide_True; [done|].
        apply elem_of_sub_nodes. apply elem_of_sub_nodes in Hd.
        by eapply in_neighbourhood_narrow.
      * intros a b w. rewrite !edge_weight_subgraph.
        case_decide as Hd; [|done]. intros Hw.
        rewrite decide_True; [done|].
        destruct Hd as [Ha Hb]. apply elem_of_sub_nodes in Ha, Hb.
        split; apply elem_of_sub_nodes; by eapply in_neighbourhood_narrow.
  - exists G. split; [unfold keyword_filter; by rewrite Hk1|].
    by apply keyword_filter_sub in Hf2.
Qed.

Lemma X11_longer_keyword_narrows_witness :
  ∃ G1, keyword_filter (build_graph sample_texts sample_similarity (3 # 10)) "o"%string = Ok G1 ∧
    (∀ n lbl, node (mkGraph {[2 := "unrelated robotics topic"%string]} {[2 := ∅]}) !! n = Some lbl →
              node G1 !! n = Some lbl) ∧
    (∀ a b w,
       nx.edge_weight (mkGraph {[2 := "unrelated robotics topic"%string]} {[2 := ∅]}) a b = Some w →
       nx.edge_weight G1 a b = Some w).
Proof.
  apply (X11_longer_keyword_narrows
           (build_graph sample_texts sample_similarity (3 # 10)) "o"%string "robotics"%string).
  - reflexivity.
  - vm_compute. reflexivity.
Defined.

Lemma subgraph_id G S :
  well_formed G → dom (node G) ⊆ S → nx.subgraph G S = G.
Proof.
  intros (Hdom & Hnbr & _ & _) HS. destruct G as [nd ad]. simpl in *.
  unfold nx.subgraph. simpl. f_equal.
  - apply map_filter_id. intros n lbl Hn. simpl. apply HS, elem_of_dom. eauto.
  - rewrite map_filter_id.
    + rewrite <- (map_fmap_id ad) at 2. apply map_fmap_ext.
      intros u nbrs Hu. simpl. apply map_filter_id. intros v w Hv. simpl.
      apply HS, (Hnbr u v). unfold nx.edge_weight. simpl. rewrite Hu. simpl. eauto.
    + intros u nbrs Hu. simpl. apply HS. rewrite <- Hdom. apply elem_of_dom. eauto.
Qed.

(** X12. On a well-formed graph the filter with a non-empty keyword returns
    the graph itself exactly when some label contains the keyword and every
    node is a matching node or a neighbour of one. *)
Theorem X12_filter_fixed_graph G kw :
  well_formed G → kw ≠ EmptyString →
  keyword_filter G kw = Ok G ↔
  (∃ n, matches G kw n) ∧ ∀ n, n ∈ dom (node G) → in_neighbourhood G kw n.
Proof.
  intros Hwf Hkw. apply truthy_iff in Hkw. split.
  - unfold keyword_filter. rewrite Hkw.
    destruct (matched_nodes G kw) as [|m ms] eqn:Hm; [done|].
    rewrite <- Hm. intros [= HG]. split.
    + exists m. apply elem_of_matched_nodes. rewrite Hm. left.
    + intros n [lbl Hn]%elem_of_dom. apply elem_of_sub_nodes.
      rewrite <- HG, node_subgraph in Hn. by case_decide.
  - intros [Hex Hall]. rewrite keyword_filter_matched;
      [|done|by apply matched_nodes_not_nil].
    f_equal. apply subgraph_id; [done|].
    intros n Hn. by apply elem_of_sub_nodes, Hall.
Qed.

Lemma X12_filter_fixed_graph_witness :
  let G := build_graph ["nano wire"%string; "nano tube"%string] (λ _ _, 1%Q) (1 # 2) in
  keyword_filter G "wire"%string = Ok G ↔
  (∃ n, matches G "wire"%string n) ∧ ∀ n, n ∈ dom (node G) → in_neighbourhood G "wire"%string n.
Proof.
  apply (X12_filter_fixed_graph
           (build_graph ["nano wire"%string; "nano tube"%string] (λ _ _, 1%Q) (1 # 2)) "wire"%string).
  - apply well_formed_build_graph.
  - discriminate.
Defined.

End filter_more.

(** ** More on the ranked table *)

Section table_more.
Implicit Types (texts : list string) (similarity_matrix : nat → nat → Q)
  (threshold : Q) (l : list Pair).

(** X13. Every ranked pair is an edge of the unfiltered graph, with its score
    as weight; and when the graph has at most [top_n] edges the ranked list
    names every edge. *)
Theorem X13_ranked_pairs_are_edges texts similarity_matrix threshold :
  let G := build_graph texts similarity_matrix threshold in
  let ranked := top_pairs texts similarity_matrix threshold in
  (∀ i j s, (i, j, s) ∈ ranked →
     (i, j) ∈ nx.edges G ∧ nx.edge_weight G i j = Some s) ∧
  (nx.number_of_edges G ≤ top_n →
   ∀ i j, (i, j) ∈ nx.edges G → (i, j, similarity_matrix i j) ∈ ranked).
Proof.
  intros G ranked. subst G ranked. split.
  - intros i j s Hin. apply elem_of_top_pairs_pairs in Hin.
    split.
    + rewrite edges_build_graph. apply elem_of_list_to_set, list_elem_of_fmap.
      by exists (i, j, s).
    + apply elem_of_pairs in Hin as (Hij & Hj & Hm & ->).
      rewrite edge_weight_build_graph.
      replace (i `min` j) with i by lia. replace (i `max` j) with j by lia.
      rewrite decide_True; [done|]. repeat split; [lia|lia|done|done].
  - rewrite length_pairs_edges. intros Hle i j Hin.
    rewrite edges_build_graph in Hin.
    apply elem_of_list_to_set, list_elem_of_fmap in Hin as ([[i' j'] s] & [= <- <-] & Hin).
    unfold top_pairs. rewrite take_ge by (by rewrite sorted_desc_Permutation).
    rewrite sorted_desc_Permutation.
    pose proof Hin as Hin'. apply elem_of_pairs in Hin' as (_ & _ & _ & ->). done.
Qed.

Lemma ranks_before_score_ge_refl (x y : Pair) : x = y ∨ ranks_before x y → score_ge x y.
Proof.
  intros [-> | H]; [apply Qle_refl|by apply ranks_before_score_ge].
Qed.

Lemma top_pairs_head_highest texts similarity_matrix threshold (p : Pair) (rest : list Pair) :
  top_pairs texts similarity_matrix threshold = p :: rest →
  ∀ i j, i < j → j < length texts → (similarity_matrix i j <= score p)%Q.
Proof.
  intros Htop i j Hij Hj.
  assert (Hp : p ∈ top_pairs texts similarity_matrix threshold) by (rewrite Htop; left).
  destruct (meets threshold (similarity_matrix i j)) eqn:Hm.
  - assert (Hq : (i, j, similarity_matrix i j) ∈ pairs texts similarity_matrix threshold)
      by (by apply elem_of_pairs).
    rewrite <- (sorted_desc_Permutation (pairs texts similarity_matrix threshold)) in Hq.
    pose proof (sorted_desc_sorted _ (pairs_enumeration_order texts similarity_matrix threshold))
      as Hs.
    rewrite <- (take_drop top_n (sorted_desc _)) in Hq, Hs.
    fold (top_pairs texts similarity_matrix threshold) in Hq, Hs.
    apply (ranks_before_score_ge_refl p (i, j, similarity_matrix i j)).
    apply elem_of_app in Hq as [Hin|Hin].
    + apply StronglySorted_app_1_l in Hs. rewrite Htop in Hs, Hin.
      apply StronglySorted_cons in Hs as [Hall _].
      apply elem_of_cons in Hin as [<- | Hin]; [by left|right].
      rewrite Forall_forall in Hall. by apply Hall.
    + right. by eapply StronglySorted_app_1_elem_of.
  - apply meets_false_iff in Hm. apply elem_of_top_pairs_pairs in Hp.
    destruct p as [[i' j'] s]. apply elem_of_pairs in Hp as (_ & _ & Hm'%meets_iff & ->).
    simpl. apply Qlt_le_weak. by eapply Qlt_le_trans.
Qed.

(** X15. A completed run shows a table with at least one row, and its first
    row is a pair of highest similarity among all pairs [i < j] of the
    corpus. *)
Theorem X15_first_row_is_most_similar
    (analyze : string → list string) texts similarity_matrix threshold
    (search_keyword : string) (G : Graph) (rows : list Row) :
  run analyze texts similarity_matrix threshold search_keyword = Ok (G, rows) →
  ∃ i j s rest,
    top_pairs texts similarity_matrix threshold = (i, j, s) :: rest ∧
    head rows = Some (text_at texts i, text_at texts j, b64.round3 (b64.of_Q s)) ∧
    s = similarity_matrix i j ∧
    ∀ i' j', i' < j' → j' < length texts → (similarity_matrix i' j' <= s)%Q.
Proof.
  intros Hrun. pose proof Hrun as Hrun'. rewrite run_cascade in Hrun'.
  apply run_Ok_inv in Hrun as [_ ->].
  destruct (fit_transform analyze texts); [|done].
  destruct (pairs texts similarity_matrix threshold) as [|q qs] eqn:Hps; [done|].
  destruct (top_pairs texts similarity_matrix threshold) as [|[[i j] s] rest] eqn:Htop.
  { pose proof (length_top_pairs texts similarity_matrix threshold) as Hlen.
    rewrite Htop, Hps in Hlen. by compute in Hlen. }
  exists i, j, s, rest. split; [done|]. split; [|split].
  - unfold top_df. by rewrite Htop.
  - assert (Hin : (i, j, s) ∈ top_pairs texts similarity_matrix threshold)
      by (rewrite Htop; left).
    by apply elem_of_top_pairs_pairs, elem_of_pairs in Hin as (_ & _ & _ & ->).
  - apply (top_pairs_head_highest texts similarity_matrix threshold (i, j, s) rest Htop).
Qed.

Lemma X15_first_row_is_most_similar_witness :
  ∃ i j s rest,
    top_pairs sample_texts sample_similarity (3 # 10) = (i, j, s) :: rest ∧
    head (top_df sample_texts sample_similarity (3 # 10))
    = Some (text_at sample_texts i, text_at sample_texts j, b64.round3 (b64.of_Q s)) ∧
    s = sample_similarity i j ∧
    ∀ i' j', i' < j' → j' < length sample_texts → (sample_similarity i' j' <= s)%Q.
Proof.
  apply (X15_first_row_is_most_similar ascii_text.analyze sample_texts sample_similarity
           (3 # 10) "robotics"
           (mkGraph {[2 := "unrelated robotics topic"%string]} {[2 := ∅]})).
  vm_compute. reflexivity.
Defined.

End table_more.

(** ** The ranked table under a higher threshold *)

Section table_threshold.
Implicit Types (texts : list string) (similarity_matrix : nat → nat → Q) (l : list Pair).

Lemma filter_bind {A B} (P : B → Prop) `{!∀ b, Decision (P b)}
    (f : A → list B) (l : list A) :
  filter P (l ≫= f) = l ≫= (λ a, filter P (f a)).
Proof.
  induction l as [|a l IH]; [done|].
  by rewrite !bind_cons, filter_app, IH.
Qed.

Lemma bind_ext_in {A B} (f g : A → list B) (l : list A) :
  (∀ a, a ∈ l → f a = g a) → l ≫= f = l ≫= g.
Proof.
  induction l as [|a l IH]; intros Hfg; [done|].
  rewrite !bind_cons, (Hfg a) by left. f_equal. apply IH. intros. apply Hfg. by right.
Qed.

(** The pairs at a higher threshold are those of the lower one that still
    qualify, in the same order. *)
Lemma pairs_filter texts similarity_matrix (t1 t2 : Q) :
  (t1 <= t2)%Q →
  pairs texts similarity_matrix t2 =
  filter (λ p : Pair, meets t2 (score p)) (pairs texts similarity_matrix t1).
Proof.
  intros Hle. unfold pairs. rewrite filter_bind.
  apply bind_ext_in. intros i _. rewrite filter_bind.
  apply bind_ext_in. intros j _.
  destruct (meets t2 (similarity_matrix i j)) eqn:H2.
  - rewrite (proj2 (meets_iff t1 _)).
    + rewrite filter_cons_True by (apply Is_true_true; exact H2).
      by rewrite filter_nil.
    + apply meets_iff in H2. by eapply Qle_trans.
  - destruct (meets t1 (similarity_matrix i j)); [|by rewrite filter_nil].
    rewrite filter_cons_False by (intros Hc; apply Is_true_true in Hc;
      change (meets t2 (similarity_matrix i j) = true) in Hc; congruence).
    by rewrite filter_nil.
Qed.

Lemma StronglySorted_filter {A} (R : relation A) (P : A → Prop) `{!∀ a, Decision (P a)}
    (l : list A) :
  StronglySorted R l → StronglySorted R (filter P l).
Proof.
  induction 1 as [|a l Hl IH Ha]; [constructor|].
  rewrite filter_cons. case_decide; [|done].
  constructor; [done|]. apply Forall_forall. intros b Hb.
  apply list_elem_of_filter in Hb as [_ Hb]. rewrite Forall_forall in Ha. by apply Ha.
Qed.

Lemma ranks_before_asym (x y : Pair) : ranks_before x y → ranks_before y x → False.
Proof.
  unfold ranks_before, lex_lt. intros [H1|[H1 L1]] [H2|[H2 L2]].
  - by apply (Qlt_irrefl (score x)), (Qlt_trans _ (score y)).
  - rewrite H2 in H1. by apply Qlt_irrefl in H1.
  - rewrite H1 in H2. by apply Qlt_irrefl in H2.
  - lia.
Qed.

(** Sorting commutes with dropping the pairs below a threshold. *)
Lemma sorted_desc_filter (t : Q) l :
  StronglySorted (λ x y, lex_lt x.1 y.1) l →
  sorted_desc (filter (λ p : Pair, meets t (score p)) l) =
  filter (λ p : Pair, meets t (score p)) (sorted_desc l).
Proof.
  intros Hl. apply (StronglySorted_unique_strong ranks_before).
  - intros x y _ _ Hxy Hyx. destruct (ranks_before_asym x y Hxy Hyx).
  - by apply sorted_desc_sorted, StronglySorted_filter.
  - by apply StronglySorted_filter, sorted_desc_sorted.
  - by rewrite !sorted_desc_Permutation.
Qed.

(** In a list sorted by non-increasing score the pairs that meet a threshold
    come first. *)
Lemma filter_meets_prefix (t : Q) l :
  StronglySorted score_ge l →
  filter (λ p : Pair, meets t (score p)) l `prefix_of` l.
Proof.
  induction 1 as [|x l Hl IH Hx]; [done|].
  rewrite filter_cons. case_decide as Hm; [by apply prefix_cons|].
  replace (filter _ l) with (@nil Pair); [apply prefix_nil|].
  symmetry. apply elem_of_nil_inv. intros y Hy.
  apply list_elem_of_filter in Hy as [Hty Hy].
  rewrite Forall_forall in Hx. specialize (Hx y Hy). unfold score_ge in Hx.
  apply Hm. apply Is_true_true, meets_iff.
  apply Is_true_true, meets_iff in Hty. by eapply Qle_trans.
Qed.

Lemma prefix_take_mono {A} (l1 l2 : list A) (n : nat) :
  l1 `prefix_of` l2 → take n l1 `prefix_of` take n l2.
Proof.
  intros [k ->]. rewrite take_app. by eexists.
Qed.

Lemma top_pairs_prefix texts similarity_matrix (t1 t2 : Q) :
  (t1 <= t2)%Q →
  top_pairs texts similarity_matrix t2 `prefix_of` top_pairs texts similarity_matrix t1.
Proof.
  intros Hle. unfold top_pairs. apply prefix_take_mono.
  rewrite (pairs_filter texts similarity_matrix t1 t2 Hle).
  rewrite sorted_desc_filter by apply pairs_enumeration_order.
  apply filter_meets_prefix.
  eapply StronglySorted_weaken; [apply ranks_before_score_ge|].
  apply sorted_desc_sorted, pairs_enumeration_order.
Qed.

(** X14. Raising the threshold only cuts the ranked table at its end: the
    ranked pairs and the rows shown at the higher threshold are an initial
    segment of those at the lower threshold. *)
Theorem X14_higher_threshold_truncates_table texts similarity_matrix (t1 t2 : Q) :
  (t1 <= t2)%Q →
  top_pairs texts similarity_matrix t2 `prefix_of` top_pairs texts similarity_matrix t1 ∧
  top_df texts similarity_matrix t2 `prefix_of` top_df texts similarity_matrix t1.
Proof.
  intros Hle. pose proof (top_pairs_prefix texts similarity_matrix t1 t2 Hle) as Hp.
  split; [done|]. unfold top_df. destruct Hp as [k ->].
  rewrite fmap_app. by eexists.
Qed.

Lemma X14_higher_threshold_truncates_table_witness :
  let sim (i j : nat) : Q :=
    match i, j with
    | 0, 1 => 9 # 10
    | 0, 2 => 4 # 10
    | 1, 2 => 6 # 10
    | _, _ => 0%Q
    end in
  top_pairs ["a1"; "b2"; "c3"]%string sim (5 # 10) `prefix_of`
    top_pairs ["a1"; "b2"; "c3"]%string sim (3 # 10) ∧
  top_df ["a1"; "b2"; "c3"]%string sim (5 # 10) `prefix_of`
    top_df ["a1"; "b2"; "c3"]%string sim (3 # 10).
Proof.
  intros sim.
  apply (X14_higher_threshold_truncates_table ["a1"; "b2"; "c3"]%string sim (3 # 10) (5 # 10)).
  by compute.
Defined.

End table_threshold.


(** ** Short labels *)

Section short_labels.
Import Label.
Implicit Types (s t b g : string) (gs : list string) (c : ascii).

Example short_label_examples :
  short_label "nano wire" = "nano wire"%string ∧
  short_label "solar cell battery" = "solar cell batt..."%string ∧
  len "나노" = 2 ∧ String.length "나노" = 6.
Proof. repeat split. Qed.

Lemma chars_cons_fresh c t b :
  continues t = true → starts_fresh b = true →
  chars (String c (t +:+ b)) = String c t :: chars b.
Proof.
  revert c. induction t as [|c1 t1 IH]; intros c Ht Hb.
  - change (EmptyString +:+ b)%string with b. destruct b as [|c' b']; [done|].
    simpl in Hb. apply negb_true_iff in Hb. cbn [chars]. by rewrite Hb.
  - simpl in Ht. apply andb_true_iff in Ht as [Hc1 Ht1].
    change (String c1 t1 +:+ b)%string with (String c1 (t1 +:+ b)).
    specialize (IH c1 Ht1 Hb).
    change (chars (String c (String c1 (t1 +:+ b)))) with
      (if is_continuation c1 then
         match chars (String c1 (t1 +:+ b)) with
         | g :: gs => String c g :: gs
         | [] => [String c EmptyString]
         end
       else String c EmptyString :: chars (String c1 (t1 +:+ b))).
    by rewrite Hc1, IH.
Qed.

Lemma starts_fresh_join_app gs b :
  Forall is_char gs → starts_fresh b = true → starts_fresh (join gs +:+ b) = true.
Proof.
  intros Hgs Hb. destruct Hgs as [|g gs (c & t & -> & Hc & _) _]; [done|].
  simpl. by rewrite Hc.
Qed.

(** Cutting a sequence of characters, followed by text that starts a new
    character, gives the characters back. *)
Lemma chars_join_app gs b :
  Forall is_char gs → starts_fresh b = true →
  chars (join gs +:+ b) = gs ++ chars b.
Proof.
  intros Hgs Hb. induction Hgs as [|g gs (c & t & -> & Hc & Ht) Hgs IH]; [done|].
  change (join (String c t :: gs) +:+ b)%string
    with (String c ((t +:+ join gs) +:+ b)).
  rewrite append_assoc, chars_cons_fresh, IH; [done|done|].
  by apply starts_fresh_join_app.
Qed.

(** The characters of a string: a first one, which starts with whatever byte
    the string starts with, and then well-formed ones. *)
Lemma chars_shape s :
  match chars s with
  | [] => s = EmptyString
  | g :: gs =>
      ∃ c t, g = String c t ∧ continues t = true ∧ Forall is_char gs ∧
             s = String c (t +:+ join gs)
  end.
Proof.
  induction s as [|c s IH]; [done|].
  destruct s as [|c' s'].
  { exists c, EmptyString. by repeat split. }
  change (chars (String c (String c' s'))) with
    (if is_continuation c' then
       match chars (String c' s') with
       | g :: gs => String c g :: gs
       | [] => [String c EmptyString]
       end
     else String c EmptyString :: chars (String c' s')).
  destruct (chars (String c' s')) as [|g gs] eqn:Hch; [done|].
  destruct IH as (c1 & t1 & -> & Ht1 & Hgs & Hs). injection Hs as -> Hs'.
  destruct (is_continuation c1) eqn:Hc1.
  - exists c, (String c1 t1). split; [done|]. split; [simpl; by rewrite Hc1|].
    split; [done|]. by rewrite Hs'.
  - exists c, EmptyString. split; [done|]. split; [done|]. split.
    + constructor; [|done]. by exists c1, t1.
    + by rewrite Hs'.
Qed.

Lemma join_chars s : join (chars s) = s.
Proof.
  pose proof (chars_shape s) as Hs. destruct (chars s) as [|g gs]; [done|].
  destruct Hs as (c & t & -> & _ & _ & ->). done.
Qed.

Lemma chars_slice_app n s b :
  starts_fresh b = true →
  chars (slice_to n s +:+ b) = take n (chars s) ++ chars b.
Proof.
  intros Hb. unfold slice_to.
  pose proof (chars_shape s) as Hs. destruct (chars s) as [|g gs].
  { by rewrite take_nil. }
  destruct Hs as (c & t & -> & Ht & Hgs & _).
  destruct n as [|n]; [done|]. rewrite firstn_cons.
  change (join (String c t :: take n gs) +:+ b)%string
    with (String c ((t +:+ join (take n gs)) +:+ b)).
  rewrite append_assoc, chars_cons_fresh; [|done|].
  - rewrite chars_join_app; [done| |done]. by apply Forall_take.
  - apply starts_fresh_join_app; [|done]. by apply Forall_take.
Qed.

(** X17. The short label of a node has at most 18 characters; a label of at
    most 15 characters is shown as it is, and a longer one as its first 15
    characters followed by three dots, 18 characters in all; shortening a
    short label changes nothing. *)
Theorem X17_short_label (label : string) :
  len (short_label label) ≤ 18 ∧
  (len label ≤ 15 → short_label label = label) ∧
  (15 < len label →
     len (short_label label) = 18 ∧
     chars (short_label label) = take 15 (chars label) ++ ["."; "."; "."]%string) ∧
  short_label (short_label label) = short_label label.
Proof.
  assert (Hlong : 15 < len label →
            chars (short_label label) = take 15 (chars label) ++ ["."; "."; "."]%string).
  { intros Hl. unfold short_label. rewrite (proj2 (Nat.ltb_lt _ _) Hl).
    by rewrite chars_slice_app. }
  assert (Hlen : 15 < len label → len (short_label label) = 18).
  { intros Hl. unfold len in *. rewrite (Hlong Hl), length_app, length_take.
    cbn [length]. lia. }
  destruct (decide (15 < len label)) as [Hl|Hl].
  - split; [rewrite Hlen; done|]. split; [lia|]. split; [auto|].
    unfold short_label at 1. rewrite (Hlen Hl). simpl Nat.ltb.
    unfold slice_to. rewrite (Hlong Hl).
    rewrite take_app_length' by (rewrite length_take; unfold len in Hl; lia).
    unfold short_label. by rewrite (proj2 (Nat.ltb_lt _ _) Hl).
  - assert (Hs : short_label label = label).
    { unfold short_label. by rewrite (proj2 (Nat.ltb_ge _ _)) by lia. }
    rewrite !Hs. split; [lia|]. split; [done|]. split; [lia|done].
Qed.

End short_labels.

(** ** Order of the dictionary, threshold and stops, keyword search *)

Section robustness.
Implicit Types (G : Graph) (kw : string).

(** X18. The node set of the filter depends on which nodes match, not on the
    order or multiplicity in which [G.nodes] yields them: two lists with the
    same elements give the same set and the same subgraph. *)
Theorem X18_sub_nodes_order_independent G (ms ms' : list nat) :
  (∀ n, n ∈ ms ↔ n ∈ ms') →
  sub_nodes G ms = sub_nodes G ms' ∧
  nx.subgraph G (sub_nodes G ms) = nx.subgraph G (sub_nodes G ms').
Proof.
  intros Hsame.
  assert (Heq : sub_nodes G ms = sub_nodes G ms').
  { apply set_eq. intros x. unfold sub_nodes. rewrite !elem_of_sub_nodes_acc.
    split; (intros [?|(m & Hm & Hx)]; [by left|right; exists m; split; [|done]]);
      by apply Hsame. }
  by rewrite Heq.
Qed.

Lemma X18_sub_nodes_order_independent_witness :
  let G := build_graph sample_texts sample_similarity (3 # 10) in
  sub_nodes G [0; 2] = sub_nodes G [2; 0; 2] ∧
  nx.subgraph G (sub_nodes G [0; 2]) = nx.subgraph G (sub_nodes G [2; 0; 2]).
Proof.
  apply (X18_sub_nodes_order_independent
           (build_graph sample_texts sample_similarity (3 # 10)) [0; 2] [2; 0; 2]).
  intros n. rewrite !elem_of_cons, !elem_of_nil. tauto.
Defined.

(** X19. Raising the threshold never adds an edge to the count, and a run
    that stops for want of edges still does so at every higher threshold;
    only lowering the threshold can help. *)
Theorem X19_NoEdgesError_persists
    (analyze : string → list string) (texts : list string)
    (similarity_matrix : nat → nat → Q) (t1 t2 : Q) (search_keyword : string) :
  (t1 <= t2)%Q →
  nx.number_of_edges (build_graph texts similarity_matrix t2) ≤
    nx.number_of_edges (build_graph texts similarity_matrix t1) ∧
  (run analyze texts similarity_matrix t1 search_keyword = Stop NoEdgesError →
   run analyze texts similarity_matrix t2 search_keyword = Stop NoEdgesError).
Proof.
  intros Hle. split.
  - rewrite !length_pairs_edges, (pairs_filter texts similarity_matrix t1 t2 Hle).
    apply length_filter.
  - rewrite !run_cascade. destruct (fit_transform analyze texts); [|done].
    rewrite (pairs_filter texts similarity_matrix t1 t2 Hle).
    destruct (pairs texts similarity_matrix t1) as [|p ps]; [done|].
    destruct (keyword_filter _ search_keyword) as [G|e] eqn:Hk; simpl; [done|].
    apply keyword_filter_Stop in Hk as ->. done.
Qed.

Lemma X19_NoEdgesError_persists_witness :
  nx.number_of_edges (build_graph sample_texts sample_similarity (8 # 10)) ≤
    nx.number_of_edges (build_graph sample_texts sample_similarity (6 # 10)) ∧
  (run ascii_text.analyze sample_texts sample_similarity (6 # 10) "" = Stop NoEdgesError →
   run ascii_text.analyze sample_texts sample_similarity (8 # 10) "" = Stop NoEdgesError).
Proof.
  apply (X19_NoEdgesError_persists ascii_text.analyze sample_texts sample_similarity
           (6 # 10) (8 # 10) "").
  by compute.
Defined.

Lemma length_append (a b : string) :
  String.length (a +:+ b) = String.length a + String.length b.
Proof.
  induction a as [|c a IH]; [done|].
  change (String c a +:+ b)%string with (String c (a +:+ b)). simpl. by rewrite IH.
Qed.

(** X20. The keyword test is the substring relation on the raw label: it
    holds exactly when the label is some text, the keyword, and some text; so
    a keyword longer than a label does not match it, and a row whose text is
    missing (the empty label) is matched by the empty keyword only. *)
Theorem X20_keyword_is_substring (kw label : string) :
  (Str.contains kw label = true ↔ ∃ pre post, label = (pre +:+ kw +:+ post)%string) ∧
  (Str.contains kw label = true → String.length kw ≤ String.length label) ∧
  (Str.contains kw EmptyString = true ↔ kw = EmptyString) ∧
  Str.contains label label = true.
Proof.
  split; [apply contains_spec|]. split; [|split].
  - intros (pre & post & ->)%contains_spec. rewrite !length_append. lia.
  - split; [apply contains_empty_label|by intros ->].
  - apply contains_spec. exists EmptyString, EmptyString.
    clear. induction label as [|c l IH]; [done|].
    change (EmptyString +:+ String c l +:+ EmptyString)%string
      with (String c (EmptyString +:+ l +:+ EmptyString)). by rewrite <- IH.
Qed.

End robustness.
